(** * MP3Player: the library state manager of the playlist-enabled app

    Shallow embedding of the React component of [src/unnamed/part_001]
    (the variant of the app with favorites and playlists).  The component's
    hooks are a record [AppState]; every handler is a function from the
    render snapshot it closes over to a computation in a small state and
    exception monad over the [World] (component state, key-value store,
    file store, audio engine, event log).

    The platform collaborators (AsyncStorage, FileSystem, Audio.Sound,
    Alert, DocumentPicker) are not part of the repository; they are
    modelled by their effect on the world:
    - a store slot holds nothing, the empty text, a text that [JSON.parse]
      rejects, or the serialization of a value of the structure the app
      writes under that key; the hooks are typed, so a stored text that
      parses to a value of another shape ([null], a number, ...) has no
      counterpart here;
    - [FileSystem.deleteAsync], [FileSystem.copyAsync],
      [Audio.Sound.createAsync] and [AsyncStorage.setItem] raise when the
      [Env] says so; existence checks, reads of the store and the commands
      on a sound object ([stopAsync], [unloadAsync], ...) do not raise;
    - the engine is the list of the handles that are loaded;
    - a file copy takes the time the [Env] gives: [pickSong] reads the clock
      before and after the copy it awaits.  No other handler reads the
      clock after an await, so the time the other awaits take shows only as
      time between operations.
    Strings are sequences of code units below 256.  Operations run one
    after the other, each to its end, as the user paces them. *)

From Stdlib Require Import List String Ascii Bool Arith ZArith NArith Lia.
From Stdlib Require Import DecimalString.
Import ListNotations.
Open Scope string_scope.

(** ** Data model *)

(** A song record [{ id, name, uri }]. *)
Record Song := mkSong {
  song_id : string;
  song_name : string;
  song_uri : string
}.

(** A playlist record [{ id, name, songs }]; [songs] is an array of ids. *)
Record Playlist := mkPlaylist {
  pl_id : string;
  pl_name : string;
  pl_songs : list string
}.

(** An engine handle: the [Audio.Sound] object returned by [createAsync]. *)
Definition Handle := nat.

(** The [currentView] hook: ['all'], ['favorites'] or ['playlist']. *)
Inductive View := ViewAll | ViewFavorites | ViewPlaylist.

(** The hooks of [App] (lines 16-30), in declaration order. *)
Record AppState := mkApp {
  sound : option Handle;
  songs : list Song;
  currentSong : option Song;
  isPlaying : bool;
  position : Z;
  duration : Z;
  isLoading : bool;
  favorites : list string;
  playlists : list Playlist;
  showCreatePlaylist : bool;
  newPlaylistName : string;
  selectedPlaylist : option Playlist;
  showAddToPlaylist : bool;
  songToAdd : option Song;
  currentView : View
}.

(** The values of [useState(...)] at mount. *)
Definition initialApp : AppState :=
  mkApp None [] None false 0 0 true [] [] false "" None false None ViewAll.

(** The three AsyncStorage keys. *)
Inductive Key := SONGS_KEY | FAVORITES_KEY | PLAYLISTS_KEY.

(** What [AsyncStorage.getItem] finds under a key: nothing ([null]), the
    empty text, a text that [JSON.parse] rejects with a [SyntaxError], or
    the serialization of a value of the stored structure.  [JSON.stringify]
    followed by [JSON.parse] is the identity on these structures, so the
    serialized value is kept as the value itself.  A text that parses to a
    value of another shape is not among the cases: the hooks it would end
    up in are typed. *)
Inductive Slot (A : Type) :=
| Absent
| EmptyText
| Malformed
| Json (value : A).
Arguments Absent {A}.
Arguments EmptyText {A}.
Arguments Malformed {A}.
Arguments Json {A} value.

Record Store := mkStore {
  saved_songs : Slot (list Song);
  saved_favorites : Slot (list string);
  saved_playlists : Slot (list Playlist)
}.

Definition emptyStore : Store := mkStore Absent Absent Absent.

(** What the awaited collaborators can raise. *)
Inductive Error :=
| SyntaxError      (* JSON.parse *)
| StoreError       (* AsyncStorage.setItem *)
| DeleteError      (* FileSystem.deleteAsync *)
| CopyError        (* FileSystem.copyAsync *)
| EngineError.     (* Audio.Sound.createAsync *)

(** The status object passed to [onPlaybackStatusUpdate]. *)
Record PlaybackStatus := mkStatus {
  status_isLoaded : bool;
  status_positionMillis : Z;
  status_durationMillis : Z;
  status_isPlaying : bool;
  status_didJustFinish : bool
}.

(** The first asset of a [DocumentPicker] result; [asset_name] may be
    missing or empty. *)
Record Asset := mkAsset {
  asset_name : string;
  asset_uri : string
}.

(** Everything the component does that is visible from outside, in order. *)
Inductive Event :=
| EvSetSound (v : option Handle)
| EvSetSongs (v : list Song)
| EvSetCurrentSong (v : option Song)
| EvSetIsPlaying (v : bool)
| EvSetPosition (v : Z)
| EvSetDuration (v : Z)
| EvSetIsLoading (v : bool)
| EvSetFavorites (v : list string)
| EvSetPlaylists (v : list Playlist)
| EvSetShowCreatePlaylist (v : bool)
| EvSetNewPlaylistName (v : string)
| EvSetSelectedPlaylist (v : option Playlist)
| EvSetShowAddToPlaylist (v : bool)
| EvSetSongToAdd (v : option Song)
| EvSetCurrentView (v : View)
| EvStoreWrite (k : Key)
| EvMakeDirectory (dir : string)
| EvDeleteFile (path : string)
| EvCopyFile (src dst : string)
| EvCreate (path : string) (h : Handle)
| EvUnload (h : Handle)
| EvStop (h : Handle)
| EvPause (h : Handle)
| EvPlay (h : Handle)
| EvSeek (h : Handle) (v : Z)
| EvAlert (title message : string)
| EvConsoleError (message : string).

(** The world the handlers run in. *)
Record World := mkWorld {
  app : AppState;            (* the hooks *)
  store : Store;             (* AsyncStorage *)
  files : list string;       (* paths present in the file store *)
  live : list Handle;        (* engine handles loaded and not yet unloaded *)
  next_handle : Handle;      (* the next handle createAsync returns *)
  now : N;                   (* Date.now() *)
  log : list Event
}.

(** The collaborators' failures: which file deletions, file copies, engine
    creations and store writes raise, the platform's document directory,
    and the milliseconds a copy of a source takes. *)
Record Env := mkEnv {
  documentDirectory : string;
  delete_fails : string -> bool;
  copy_fails : string -> bool;
  create_fails : string -> bool;
  store_fails : Key -> bool;
  copy_millis : string -> N
}.

(** ** Field updates *)

Definition with_app (f : AppState -> AppState) (w : World) : World :=
  mkWorld (f (app w)) (store w) (files w) (live w) (next_handle w) (now w) (log w).
Definition with_store (f : Store -> Store) (w : World) : World :=
  mkWorld (app w) (f (store w)) (files w) (live w) (next_handle w) (now w) (log w).
Definition with_files (f : list string -> list string) (w : World) : World :=
  mkWorld (app w) (store w) (f (files w)) (live w) (next_handle w) (now w) (log w).
Definition with_live (f : list Handle -> list Handle) (w : World) : World :=
  mkWorld (app w) (store w) (files w) (f (live w)) (next_handle w) (now w) (log w).
Definition with_next_handle (n : Handle) (w : World) : World :=
  mkWorld (app w) (store w) (files w) (live w) n (now w) (log w).
Definition with_now (t : N) (w : World) : World :=
  mkWorld (app w) (store w) (files w) (live w) (next_handle w) t (log w).
Definition emit (e : Event) (w : World) : World :=
  mkWorld (app w) (store w) (files w) (live w) (next_handle w) (now w) (log w ++ [e]).

Definition upd_sound v (a : AppState) : AppState :=
  mkApp v (songs a) (currentSong a) (isPlaying a) (position a) (duration a)
        (isLoading a) (favorites a) (playlists a) (showCreatePlaylist a)
        (newPlaylistName a) (selectedPlaylist a) (showAddToPlaylist a)
        (songToAdd a) (currentView a).
Definition upd_songs v (a : AppState) : AppState :=
  mkApp (sound a) v (currentSong a) (isPlaying a) (position a) (duration a)
        (isLoading a) (favorites a) (playlists a) (showCreatePlaylist a)
        (newPlaylistName a) (selectedPlaylist a) (showAddToPlaylist a)
        (songToAdd a) (currentView a).
Definition upd_currentSong v (a : AppState) : AppState :=
  mkApp (sound a) (songs a) v (isPlaying a) (position a) (duration a)
        (isLoading a) (favorites a) (playlists a) (showCreatePlaylist a)
        (newPlaylistName a) (selectedPlaylist a) (showAddToPlaylist a)
        (songToAdd a) (currentView a).
Definition upd_isPlaying v (a : AppState) : AppState :=
  mkApp (sound a) (songs a) (currentSong a) v (position a) (duration a)
        (isLoading a) (favorites a) (playlists a) (showCreatePlaylist a)
        (newPlaylistName a) (selectedPlaylist a) (showAddToPlaylist a)
        (songToAdd a) (currentView a).
Definition upd_position v (a : AppState) : AppState :=
  mkApp (sound a) (songs a) (currentSong a) (isPlaying a) v (duration a)
        (isLoading a) (favorites a) (playlists a) (showCreatePlaylist a)
        (newPlaylistName a) (selectedPlaylist a) (showAddToPlaylist a)
        (songToAdd a) (currentView a).
Definition upd_duration v (a : AppState) : AppState :=
  mkApp (sound a) (songs a) (currentSong a) (isPlaying a) (position a) v
        (isLoading a) (favorites a) (playlists a) (showCreatePlaylist a)
        (newPlaylistName a) (selectedPlaylist a) (showAddToPlaylist a)
        (songToAdd a) (currentView a).
Definition upd_isLoading v (a : AppState) : AppState :=
  mkApp (sound a) (songs a) (currentSong a) (isPlaying a) (position a)
        (duration a) v (favorites a) (playlists a) (showCreatePlaylist a)
        (newPlaylistName a) (selectedPlaylist a) (showAddToPlaylist a)
        (songToAdd a) (currentView a).
Definition upd_favorites v (a : AppState) : AppState :=
  mkApp (sound a) (songs a) (currentSong a) (isPlaying a) (position a)
        (duration a) (isLoading a) v (playlists a) (showCreatePlaylist a)
        (newPlaylistName a) (selectedPlaylist a) (showAddToPlaylist a)
        (songToAdd a) (currentView a).
Definition upd_playlists v (a : AppState) : AppState :=
  mkApp (sound a) (songs a) (currentSong a) (isPlaying a) (position a)
        (duration a) (isLoading a) (favorites a) v (showCreatePlaylist a)
        (newPlaylistName a) (selectedPlaylist a) (showAddToPlaylist a)
        (songToAdd a) (currentView a).
Definition upd_showCreatePlaylist v (a : AppState) : AppState :=
  mkApp (sound a) (songs a) (currentSong a) (isPlaying a) (position a)
        (duration a) (isLoading a) (favorites a) (playlists a) v
        (newPlaylistName a) (selectedPlaylist a) (showAddToPlaylist a)
        (songToAdd a) (currentView a).
Definition upd_newPlaylistName v (a : AppState) : AppState :=
  mkApp (sound a) (songs a) (currentSong a) (isPlaying a) (position a)
        (duration a) (isLoading a) (favorites a) (playlists a)
        (showCreatePlaylist a) v (selectedPlaylist a) (showAddToPlaylist a)
        (songToAdd a) (currentView a).
Definition upd_selectedPlaylist v (a : AppState) : AppState :=
  mkApp (sound a) (songs a) (currentSong a) (isPlaying a) (position a)
        (duration a) (isLoading a) (favorites a) (playlists a)
        (showCreatePlaylist a) (newPlaylistName a) v (showAddToPlaylist a)
        (songToAdd a) (currentView a).
Definition upd_showAddToPlaylist v (a : AppState) : AppState :=
  mkApp (sound a) (songs a) (currentSong a) (isPlaying a) (position a)
        (duration a) (isLoading a) (favorites a) (playlists a)
        (showCreatePlaylist a) (newPlaylistName a) (selectedPlaylist a) v
        (songToAdd a) (currentView a).
Definition upd_songToAdd v (a : AppState) : AppState :=
  mkApp (sound a) (songs a) (currentSong a) (isPlaying a) (position a)
        (duration a) (isLoading a) (favorites a) (playlists a)
        (showCreatePlaylist a) (newPlaylistName a) (selectedPlaylist a)
        (showAddToPlaylist a) v (currentView a).
Definition upd_currentView v (a : AppState) : AppState :=
  mkApp (sound a) (songs a) (currentSong a) (isPlaying a) (position a)
        (duration a) (isLoading a) (favorites a) (playlists a)
        (showCreatePlaylist a) (newPlaylistName a) (selectedPlaylist a)
        (showAddToPlaylist a) (songToAdd a) v.

Definition put_saved_songs (v : Slot (list Song)) (s : Store) : Store :=
  mkStore v (saved_favorites s) (saved_playlists s).
Definition put_saved_favorites (v : Slot (list string)) (s : Store) : Store :=
  mkStore (saved_songs s) v (saved_playlists s).
Definition put_saved_playlists (v : Slot (list Playlist)) (s : Store) : Store :=
  mkStore (saved_songs s) (saved_favorites s) v.

(** ** Async computations: state passing with exceptions *)

Inductive Outcome (A : Type) :=
| Done (a : A)
| Thrown (e : Error).
Arguments Done {A} a.
Arguments Thrown {A} e.

Definition Async (A : Type) : Type := World -> Outcome A * World.

Definition ret {A} (a : A) : Async A := fun w => (Done a, w).

Definition bind {A B} (m : Async A) (k : A -> Async B) : Async B :=
  fun w =>
    match m w with
    | (Done a, w') => k a w'
    | (Thrown e, w') => (Thrown e, w')
    end.

Definition throw {A} (e : Error) : Async A := fun w => (Thrown e, w).

(** [try { m } catch (error) { handler }] *)
Definition try_catch {A} (m : Async A) (handler : Error -> Async A) : Async A :=
  fun w =>
    match m w with
    | (Done a, w') => (Done a, w')
    | (Thrown e, w') => handler e w'
    end.

(** [try { m } finally { final }] *)
Definition try_finally {A} (m : Async A) (final : Async unit) : Async A :=
  fun w =>
    match m w with
    | (r, w') =>
        match final w' with
        | (Done _, w'') => (r, w'')
        | (Thrown e, w'') => (Thrown e, w'')
        end
    end.

(** An effect that cannot fail. *)
Definition effect (f : World -> World) : Async unit := fun w => (Done tt, f w).

(** [if (c) { m }] *)
Definition when (c : bool) (m : Async unit) : Async unit :=
  if c then m else ret tt.

(** Time passing: the clock moves on by [millis]. *)
Definition elapse (millis : N) : Async unit :=
  effect (fun w => with_now (now w + millis)%N w).

Declare Scope async_scope.
Delimit Scope async_scope with async.
Notation "x <- m ;; k" := (bind m (fun x => k))
  (at level 61, m at next level, right associativity) : async_scope.
Notation "m ;; k" := (bind m (fun _ => k))
  (at level 61, right associativity) : async_scope.
Open Scope async_scope.

(** The world a computation ends in, and whether it ended normally. *)
Definition exec {A} (m : Async A) (w : World) : World := snd (m w).
Definition completes {A} (m : Async A) (w : World) : bool :=
  match fst (m w) with Done _ => true | Thrown _ => false end.

(** ** JavaScript helpers *)

(** A string is truthy when it is not empty. *)
Definition truthy (s : string) : bool := negb (s =? "").

(** [opt?.id === songId] on an optional song. *)
Definition has_id (o : option Song) (songId : string) : bool :=
  match o with
  | Some s => song_id s =? songId
  | None => false
  end.

(** [arr.includes(x)] on an array of strings. *)
Definition includes (x : string) (arr : list string) : bool :=
  existsb (String.eqb x) arr.

(** [n.toString()] on a non-negative integer. *)
Definition toString (n : N) : string := NilZero.string_of_uint (N.to_uint n).

(** White space of [String.prototype.trim] among the code units below 256:
    TAB, LF, VT, FF, CR, SP and NBSP. *)
Definition is_white_space (c : ascii) : bool :=
  let n := nat_of_ascii c in
  ((9 <=? n) && (n <=? 13) || (n =? 32) || (n =? 160))%nat.

Fixpoint trimStart (s : string) : string :=
  match s with
  | EmptyString => EmptyString
  | String c rest => if is_white_space c then trimStart rest else s
  end.

Fixpoint trimEnd (s : string) : string :=
  match s with
  | EmptyString => EmptyString
  | String c rest =>
      match trimEnd rest with
      | EmptyString => if is_white_space c then EmptyString else String c EmptyString
      | kept => String c kept
      end
  end.

Definition trim (s : string) : string := trimEnd (trimStart s).

(** [{ ...playlist, songs: v }] *)
Definition with_songs (v : list string) (playlist : Playlist) : Playlist :=
  mkPlaylist (pl_id playlist) (pl_name playlist) v.

(** ** The handlers *)

Section Handlers.

Variable env : Env.

Definition MUSIC_DIRECTORY : string := documentDirectory env ++ "music/".

(** *** Collaborators *)

(** [(await FileSystem.getInfoAsync(path)).exists] *)
Definition getInfoAsync (path : string) : Async bool :=
  fun w => (Done (existsb (String.eqb path) (files w)), w).

Definition makeDirectoryAsync (dir : string) : Async unit :=
  effect (fun w => emit (EvMakeDirectory dir) (with_files (cons dir) w)).

Definition deleteAsync (path : string) : Async unit :=
  if delete_fails env path then throw DeleteError
  else effect (fun w =>
         emit (EvDeleteFile path)
              (with_files (filter (fun p => negb (p =? path))) w)).

(** [await FileSystem.copyAsync({ from, to })]: the clock has moved on when
    the copy is over, whether it succeeded or not. *)
Definition copyAsync (src dst : string) : Async unit :=
  elapse (copy_millis env src) ;;
  if copy_fails env src then throw CopyError
  else effect (fun w => emit (EvCopyFile src dst) (with_files (cons dst) w)).

Definition getItem_songs : Async (Slot (list Song)) :=
  fun w => (Done (saved_songs (store w)), w).
Definition getItem_favorites : Async (Slot (list string)) :=
  fun w => (Done (saved_favorites (store w)), w).
Definition getItem_playlists : Async (Slot (list Playlist)) :=
  fun w => (Done (saved_playlists (store w)), w).

(** [await AsyncStorage.setItem(KEY, JSON.stringify(v))] *)
Definition setItem_songs (v : list Song) : Async unit :=
  if store_fails env SONGS_KEY then throw StoreError
  else effect (fun w =>
         emit (EvStoreWrite SONGS_KEY) (with_store (put_saved_songs (Json v)) w)).
Definition setItem_favorites (v : list string) : Async unit :=
  if store_fails env FAVORITES_KEY then throw StoreError
  else effect (fun w =>
         emit (EvStoreWrite FAVORITES_KEY) (with_store (put_saved_favorites (Json v)) w)).
Definition setItem_playlists (v : list Playlist) : Async unit :=
  if store_fails env PLAYLISTS_KEY then throw StoreError
  else effect (fun w =>
         emit (EvStoreWrite PLAYLISTS_KEY) (with_store (put_saved_playlists (Json v)) w)).

(** [if (saved) { const v = JSON.parse(saved); body(v) }]: [null] and the
    empty text are falsy and skip the block; on a malformed text
    [JSON.parse] throws; a serialization gives its value. *)
Definition if_saved {A} (saved : Slot A) (body : A -> Async unit) : Async unit :=
  match saved with
  | Absent => ret tt
  | EmptyText => ret tt
  | Malformed => throw SyntaxError
  | Json v => body v
  end.

(** [Audio.Sound.createAsync({ uri }, { shouldPlay: true, ... }, onStatus)];
    a failed creation leaves no loaded sound behind. *)
Definition createAsync (path : string) : Async Handle :=
  if create_fails env path then throw EngineError
  else fun w =>
         let h := next_handle w in
         (Done h, emit (EvCreate path h) (with_next_handle (S h) (with_live (cons h) w))).

Definition unloadAsync (h : Handle) : Async unit :=
  effect (fun w =>
    emit (EvUnload h) (with_live (filter (fun x => negb (x =? h)%nat)) w)).
Definition stopAsync (h : Handle) : Async unit := effect (emit (EvStop h)).
Definition pauseAsync (h : Handle) : Async unit := effect (emit (EvPause h)).
Definition playAsync (h : Handle) : Async unit := effect (emit (EvPlay h)).
Definition setPositionAsync (h : Handle) (v : Z) : Async unit := effect (emit (EvSeek h v)).

Definition Alert_alert (title message : string) : Async unit :=
  effect (emit (EvAlert title message)).
Definition console_error (message : string) : Async unit :=
  effect (emit (EvConsoleError message)).
Definition Date_now : Async N := fun w => (Done (now w), w).

(** *** State setters *)

Definition setSound v : Async unit :=
  effect (fun w => emit (EvSetSound v) (with_app (upd_sound v) w)).
Definition setSongs v : Async unit :=
  effect (fun w => emit (EvSetSongs v) (with_app (upd_songs v) w)).
Definition setCurrentSong v : Async unit :=
  effect (fun w => emit (EvSetCurrentSong v) (with_app (upd_currentSong v) w)).
Definition setIsPlaying v : Async unit :=
  effect (fun w => emit (EvSetIsPlaying v) (with_app (upd_isPlaying v) w)).
Definition setPosition v : Async unit :=
  effect (fun w => emit (EvSetPosition v) (with_app (upd_position v) w)).
Definition setDuration v : Async unit :=
  effect (fun w => emit (EvSetDuration v) (with_app (upd_duration v) w)).
Definition setIsLoading v : Async unit :=
  effect (fun w => emit (EvSetIsLoading v) (with_app (upd_isLoading v) w)).
Definition setFavorites v : Async unit :=
  effect (fun w => emit (EvSetFavorites v) (with_app (upd_favorites v) w)).
Definition setPlaylists v : Async unit :=
  effect (fun w => emit (EvSetPlaylists v) (with_app (upd_playlists v) w)).
Definition setShowCreatePlaylist v : Async unit :=
  effect (fun w => emit (EvSetShowCreatePlaylist v) (with_app (upd_showCreatePlaylist v) w)).
Definition setNewPlaylistName v : Async unit :=
  effect (fun w => emit (EvSetNewPlaylistName v) (with_app (upd_newPlaylistName v) w)).
Definition setSelectedPlaylist v : Async unit :=
  effect (fun w => emit (EvSetSelectedPlaylist v) (with_app (upd_selectedPlaylist v) w)).
Definition setShowAddToPlaylist v : Async unit :=
  effect (fun w => emit (EvSetShowAddToPlaylist v) (with_app (upd_showAddToPlaylist v) w)).
Definition setSongToAdd v : Async unit :=
  effect (fun w => emit (EvSetSongToAdd v) (with_app (upd_songToAdd v) w)).
Definition setCurrentView v : Async unit :=
  effect (fun w => emit (EvSetCurrentView v) (with_app (upd_currentView v) w)).

(** *** Catalog store (lines 62-125) *)

(** The loop of [loadSavedData] that keeps the songs whose file exists. *)
Fixpoint keep_existing (savedSongs existingSongs : list Song) : Async (list Song) :=
  match savedSongs with
  | [] => ret existingSongs
  | song :: rest =>
      fileExists <- getInfoAsync (song_uri song) ;;
      keep_existing rest (if fileExists then (existingSongs ++ [song])%list else existingSongs)
  end.

Definition loadSavedData : Async unit :=
  try_finally
    (try_catch
       (dirExists <- getInfoAsync MUSIC_DIRECTORY ;;
        when (negb dirExists) (makeDirectoryAsync MUSIC_DIRECTORY) ;;
        savedSongsJson <- getItem_songs ;;
        if_saved savedSongsJson (fun savedSongs =>
          existingSongs <- keep_existing savedSongs [] ;;
          setSongs existingSongs ;;
          when (negb (List.length existingSongs =? List.length savedSongs)%nat)
               (setItem_songs existingSongs)) ;;
        savedFavorites <- getItem_favorites ;;
        if_saved savedFavorites setFavorites ;;
        savedPlaylists <- getItem_playlists ;;
        if_saved savedPlaylists setPlaylists)
       (fun _ => console_error "Error loading saved data:"))
    (setIsLoading false).

Definition saveSongsToStorage (songsList : list Song) : Async unit :=
  try_catch (setItem_songs songsList)
            (fun _ => console_error "Error saving songs:").

Definition saveFavorites (favList : list string) : Async unit :=
  try_catch (setItem_favorites favList ;; setFavorites favList)
            (fun _ => console_error "Error saving favorites:").

Definition savePlaylists (playlistList : list Playlist) : Async unit :=
  try_catch (setItem_playlists playlistList ;; setPlaylists playlistList)
            (fun _ => console_error "Error saving playlists:").

(** *** Library manager and playback session (lines 127-321)

    Every handler closes over the hooks of the render it was created in:
    [r] is that snapshot, and a handler reads [r] even after it has called
    a setter. *)

(** [result] is the first asset when the picker was not cancelled and
    returned one; the operation begins when the picker returns.  The clock
    is read for the fallback name before the copy, and again for the id
    when the copy is over. *)
Definition pickSong (r : AppState) (result : option Asset) : Async unit :=
  try_catch
    (match result with
     | Some file =>
         t <- Date_now ;;
         let fileName :=
           if truthy (asset_name file) then asset_name file
           else "song_" ++ toString t ++ ".mp3" in
         let permanentUri := MUSIC_DIRECTORY ++ fileName in
         copyAsync (asset_uri file) permanentUri ;;
         t' <- Date_now ;;
         let newSong := mkSong (toString t') fileName permanentUri in
         let updatedSongs := (songs r ++ [newSong])%list in
         setSongs updatedSongs ;;
         saveSongsToStorage updatedSongs ;;
         Alert_alert "Success" "Song added successfully!"
     | None => ret tt
     end)
    (fun _ => console_error "Error picking song:" ;;
              Alert_alert "Error" "Failed to add song").

Definition playSong (r : AppState) (song : Song) : Async unit :=
  try_catch
    (match sound r with
     | Some s => unloadAsync s
     | None => ret tt
     end ;;
     newSound <- createAsync (song_uri song) ;;
     setSound (Some newSound) ;;
     setCurrentSong (Some song) ;;
     setIsPlaying true)
    (fun _ => console_error "Error playing song:" ;;
              Alert_alert "Error" "Failed to play song").

Definition onPlaybackStatusUpdate (status : PlaybackStatus) : Async unit :=
  when (status_isLoaded status)
    (setPosition (status_positionMillis status) ;;
     setDuration (status_durationMillis status) ;;
     setIsPlaying (status_isPlaying status) ;;
     when (status_didJustFinish status)
       (setIsPlaying false ;;
        setPosition 0%Z)).

(** The body of the interval of lines 38-52, which runs every 100 ms while
    [isPlaying && sound]; [status] is what [getStatusAsync] answers. *)
Definition pollStatus (r : AppState) (status : PlaybackStatus) : Async unit :=
  match sound r with
  | Some _ =>
      when (isPlaying r && status_isLoaded status)
        (setPosition (status_positionMillis status) ;;
         setDuration (status_durationMillis status))
  | None => ret tt
  end.

Definition togglePlayPause (r : AppState) : Async unit :=
  match sound r with
  | None => ret tt
  | Some s => if isPlaying r then pauseAsync s else playAsync s
  end.

Definition stopSound (r : AppState) : Async unit :=
  match sound r with
  | Some s =>
      stopAsync s ;;
      unloadAsync s ;;
      setSound None ;;
      setCurrentSong None ;;
      setIsPlaying false ;;
      setPosition 0%Z ;;
      setDuration 0%Z
  | None => ret tt
  end.

Definition seekTo (r : AppState) (value : Z) : Async unit :=
  match sound r with
  | Some s => setPositionAsync s value
  | None => ret tt
  end.

Definition deleteSong (r : AppState) (songId : string) : Async unit :=
  try_catch
    (let songToDelete := find (fun s => song_id s =? songId) (songs r) in
     when (has_id (currentSong r) songId) (stopSound r) ;;
     match songToDelete with
     | Some s =>
         when (truthy (song_uri s))
           (fileExists <- getInfoAsync (song_uri s) ;;
            when fileExists (deleteAsync (song_uri s)))
     | None => ret tt
     end ;;
     let updatedSongs := filter (fun song => negb (song_id song =? songId)) (songs r) in
     setSongs updatedSongs ;;
     saveSongsToStorage updatedSongs ;;
     let updatedFavorites := filter (fun id => negb (id =? songId)) (favorites r) in
     when (negb (List.length updatedFavorites =? List.length (favorites r))%nat)
          (saveFavorites updatedFavorites) ;;
     let updatedPlaylists :=
       map (fun playlist =>
              with_songs (filter (fun id => negb (id =? songId)) (pl_songs playlist))
                         playlist)
           (playlists r) in
     savePlaylists updatedPlaylists)
    (fun _ => console_error "Error deleting song:" ;;
              Alert_alert "Error" "Failed to delete song").

Definition toggleFavorite (r : AppState) (songId : string) : Async unit :=
  let isFavorite := includes songId (favorites r) in
  let updatedFavorites :=
    if isFavorite then filter (fun id => negb (id =? songId)) (favorites r)
    else (favorites r ++ [songId])%list in
  saveFavorites updatedFavorites.

Definition createPlaylist (r : AppState) : Async unit :=
  if negb (truthy (trim (newPlaylistName r))) then
    Alert_alert "Error" "Please enter a playlist name"
  else
    t <- Date_now ;;
    let newPlaylist := mkPlaylist (toString t) (trim (newPlaylistName r)) [] in
    let updatedPlaylists := (playlists r ++ [newPlaylist])%list in
    savePlaylists updatedPlaylists ;;
    setNewPlaylistName "" ;;
    setShowCreatePlaylist false.

(** [pressDelete]: the user chose 'Delete' in the confirmation alert. *)
Definition deletePlaylist (r : AppState) (playlistId : string) (pressDelete : bool)
  : Async unit :=
  when pressDelete
    (let updatedPlaylists :=
       filter (fun p => negb (pl_id p =? playlistId)) (playlists r) in
     savePlaylists updatedPlaylists ;;
     when (match selectedPlaylist r with
           | Some p => pl_id p =? playlistId
           | None => false
           end)
       (setSelectedPlaylist None ;;
        setCurrentView ViewAll)).

(** The array [addToPlaylist] computes from [playlists]. *)
Definition add_to (playlistId songId : string) (playlist : Playlist) : Playlist :=
  if pl_id playlist =? playlistId then
    if negb (includes songId (pl_songs playlist)) then
      with_songs (pl_songs playlist ++ [songId])%list playlist
    else playlist
  else playlist.

Definition addToPlaylist (r : AppState) (playlistId : string) : Async unit :=
  match songToAdd r with
  | None => ret tt
  | Some picked =>
      let updatedPlaylists := map (add_to playlistId (song_id picked)) (playlists r) in
      savePlaylists updatedPlaylists ;;
      setShowAddToPlaylist false ;;
      setSongToAdd None
  end.

(** The add-to-playlist button of a song row (lines 460-464). *)
Definition chooseSongToAdd (item : Song) : Async unit :=
  setSongToAdd (Some item) ;;
  setShowAddToPlaylist true.

(** The cleanup of the effect on [sound] (lines 338-344): when a render
    sees another [sound] than the one before, the sound of the render
    before is unloaded. *)
Definition sound_cleanup (r : AppState) : Async unit :=
  fun w =>
    match sound r, sound (app w) with
    | Some old, Some new => if (old =? new)%nat then (Done tt, w) else unloadAsync old w
    | Some old, None => unloadAsync old w
    | None, _ => (Done tt, w)
    end.

(** *** The component as a transition system *)

(** What can happen to the mounted component: a user action with its
    arguments (the handlers above and the inline ones of the buttons, chips
    and dialogs), a status callback or a status poll of the engine, or time
    passing. *)
Inductive Op :=
| OpPickSong (result : option Asset)
| OpPlaySong (song : Song)
| OpStatus (status : PlaybackStatus)
| OpPoll (status : PlaybackStatus)
| OpTogglePlayPause
| OpStopSound
| OpSeekTo (value : Z)
| OpDeleteSong (songId : string)
| OpToggleFavorite (songId : string)
| OpTypePlaylistName (text : string)
| OpCreatePlaylist
| OpDeletePlaylist (playlistId : string) (pressDelete : bool)
| OpChooseSongToAdd (item : Song)
| OpAddToPlaylist (playlistId : string)
| OpCancelAddToPlaylist
| OpShowCreatePlaylist
| OpCancelCreatePlaylist
| OpViewAll
| OpViewFavorites
| OpViewPlaylist (playlist : Playlist)
| OpWait (millis : N).

Definition handle (r : AppState) (op : Op) : Async unit :=
  match op with
  | OpPickSong result => pickSong r result
  | OpPlaySong song => playSong r song
  | OpStatus status => onPlaybackStatusUpdate status
  | OpPoll status => pollStatus r status
  | OpTogglePlayPause => togglePlayPause r
  | OpStopSound => stopSound r
  | OpSeekTo value => seekTo r value
  | OpDeleteSong songId => deleteSong r songId
  | OpToggleFavorite songId => toggleFavorite r songId
  | OpTypePlaylistName text => setNewPlaylistName text
  | OpCreatePlaylist => createPlaylist r
  | OpDeletePlaylist playlistId pressDelete => deletePlaylist r playlistId pressDelete
  | OpChooseSongToAdd item => chooseSongToAdd item
  | OpAddToPlaylist playlistId => addToPlaylist r playlistId
  | OpCancelAddToPlaylist => setShowAddToPlaylist false ;; setSongToAdd None
  | OpShowCreatePlaylist => setShowCreatePlaylist true
  | OpCancelCreatePlaylist => setShowCreatePlaylist false ;; setNewPlaylistName ""
  | OpViewAll => setCurrentView ViewAll ;; setSelectedPlaylist None
  | OpViewFavorites => setCurrentView ViewFavorites ;; setSelectedPlaylist None
  | OpViewPlaylist playlist =>
      setSelectedPlaylist (Some playlist) ;; setCurrentView ViewPlaylist
  | OpWait millis => elapse millis
  end.

(** One operation, run to its end on the hooks of the current render, then
    the render that follows it. *)
Definition step (w : World) (op : Op) : World :=
  exec (sound_cleanup (app w)) (exec (handle (app w) op) w).

Definition run (ops : list Op) (w : World) : World := fold_left step ops w.

(** The component at mount, over what the device holds, after the mount
    effect ([loadSavedData], line 34). *)
Definition boot (s : Store) (fs : list string) (t : N) : World :=
  mkWorld initialApp s fs [] 0 t [].

Definition mount (s : Store) (fs : list string) (t : N) : World :=
  exec loadSavedData (boot s fs t).

End Handlers.

(** ** The stated properties *)

Definition song_ids (l : list Song) : list string := map song_id l.

(** I1: every favorite id is the id of a song of the catalog. *)
Definition I1 (a : AppState) : Prop :=
  forall id, In id (favorites a) -> In id (song_ids (songs a)).

(** I2: every id of every playlist is the id of a song of the catalog. *)
Definition I2 (a : AppState) : Prop :=
  forall p id, In p (playlists a) -> In id (pl_songs p) -> In id (song_ids (songs a)).

(** I3: no playlist holds an id twice. *)
Definition I3 (a : AppState) : Prop :=
  forall p, In p (playlists a) -> NoDup (pl_songs p).

(** I5: at most one engine handle is live. *)
Definition I5 (w : World) : Prop := (List.length (live w) <= 1)%nat.

(** The empty (Idle) session. *)
Definition Idle (a : AppState) : Prop :=
  sound a = None /\ currentSong a = None /\ isPlaying a = false /\
  position a = 0%Z /\ duration a = 0%Z.

(** The session part of the hooks. *)
Definition session (a : AppState) :=
  (sound a, currentSong a, isPlaying a, position a, duration a).

(** [id] occurs in no favorite and in no playlist. *)
Definition unreferenced (id : string) (a : AppState) : Prop :=
  ~ In id (favorites a) /\ forall p, In p (playlists a) -> ~ In id (pl_songs p).

(** What the session and the engine satisfy between operations: a current
    song comes with a sound object, and the only handle that can be live is
    the one the [sound] hook holds. *)
Definition session_ok (w : World) : Prop :=
  (currentSong (app w) <> None -> sound (app w) <> None) /\
  (live w = [] \/ exists h, live w = [h] /\ sound (app w) = Some h).

(** What the session and the engine show of a world. *)
Definition engine_view (w : World) :=
  (sound (app w), currentSong (app w), live w).

(** The operations that command the engine to load or unload. *)
Definition loads_or_unloads (op : Op) : bool :=
  match op with
  | OpPlaySong _ | OpStopSound | OpDeleteSong _ => true
  | _ => false
  end.

(** The setter calls and engine commands of a full stop of handle [h]. *)
Definition reset_events (h : Handle) : list Event :=
  [EvStop h; EvUnload h; EvSetSound None; EvSetCurrentSong None;
   EvSetIsPlaying false; EvSetPosition 0%Z; EvSetDuration 0%Z].

(** The events through which a change of the catalog shows. *)
Definition catalog_event (e : Event) : bool :=
  match e with
  | EvSetSongs _ | EvSetFavorites _ | EvSetPlaylists _
  | EvStoreWrite _ | EvDeleteFile _ => true
  | _ => false
  end.

(** The events through which a failure is reported to the user. *)
Definition is_alert (e : Event) : bool :=
  match e with
  | EvAlert _ _ => true
  | _ => false
  end.

(** The events that touch the session hooks. *)
Definition session_event (e : Event) : bool :=
  match e with
  | EvSetSound _ | EvSetCurrentSong _ | EvSetIsPlaying _
  | EvSetPosition _ | EvSetDuration _ => true
  | _ => false
  end.

(** A store write to another key than the songs key. *)
Definition writes_other_key (e : Event) : bool :=
  match e with
  | EvStoreWrite FAVORITES_KEY | EvStoreWrite PLAYLISTS_KEY => true
  | _ => false
  end.

(** The hooks after a setter call; the other events leave them alone. *)
Definition apply_event (e : Event) (a : AppState) : AppState :=
  match e with
  | EvSetSound v => upd_sound v a
  | EvSetSongs v => upd_songs v a
  | EvSetCurrentSong v => upd_currentSong v a
  | EvSetIsPlaying v => upd_isPlaying v a
  | EvSetPosition v => upd_position v a
  | EvSetDuration v => upd_duration v a
  | EvSetIsLoading v => upd_isLoading v a
  | EvSetFavorites v => upd_favorites v a
  | EvSetPlaylists v => upd_playlists v a
  | EvSetShowCreatePlaylist v => upd_showCreatePlaylist v a
  | EvSetNewPlaylistName v => upd_newPlaylistName v a
  | EvSetSelectedPlaylist v => upd_selectedPlaylist v a
  | EvSetShowAddToPlaylist v => upd_showAddToPlaylist v a
  | EvSetSongToAdd v => upd_songToAdd v a
  | EvSetCurrentView v => upd_currentView v a
  | _ => a
  end.

(** The hooks a render sees after the events [evs], starting from [a]. *)
Definition replay (evs : list Event) (a : AppState) : AppState :=
  fold_left (fun a e => apply_event e a) evs a.

(** [addSongToPlaylist(playlistId, songId)] as the user performs it: the
    add button of the song's row, then the playlist in the dialog. *)
Definition addSongToPlaylist (env : Env) (w : World) (playlistId : string) (item : Song)
  : World :=
  step env (step env w (OpChooseSongToAdd item)) (OpAddToPlaylist playlistId).

(** Going from [w] to [w'] showed the user the alert [title], [message]. *)
Definition reported (title message : string) (w w' : World) : Prop :=
  exists evs, log w' = (log w ++ evs)%list /\ In (EvAlert title message) evs.

(** Going from [w] to [w'] showed the user no alert. *)
Definition silent (w w' : World) : Prop :=
  exists evs, log w' = (log w ++ evs)%list /\
              forallb (fun e => negb (is_alert e)) evs = true.

(** The array without [songId], as [deleteSong] filters it. *)
Definition without (songId : string) (ids : list string) : list string :=
  filter (fun id => negb (id =? songId)) ids.

(** The songs whose file is among [fs], as [loadSavedData] keeps them. *)
Definition existing (fs : list string) (saved : list Song) : list Song :=
  filter (fun song => existsb (String.eqb (song_uri song)) fs) saved.

(** The value a slot holds, the empty array when it holds none. *)
Definition slot_value {A} (s : Slot (list A)) : list A :=
  match s with
  | Json v => v
  | _ => []
  end.

(** The slot makes [JSON.parse] throw. *)
Definition corrupt {A} (s : Slot A) : bool :=
  match s with
  | Malformed => true
  | _ => false
  end.

(** The songs part of [loadSavedData] throws: the text is corrupt, or the
    pruned list cannot be written back. *)
Definition songs_step_throws (env : Env) (s : Store) (fs : list string) : bool :=
  match saved_songs s with
  | Absent | EmptyText => false
  | Malformed => true
  | Json saved =>
      negb (List.length (existing fs saved) =? List.length saved)%nat
      && store_fails env SONGS_KEY
  end.

(** *** Statements of the specification that the code does not satisfy *)

(** Load prunes dangling favorites and playlist entries. *)
Definition load_prunes (env : Env) (s : Store) (fs : list string) (t : N) : Prop :=
  let w := mount env s fs t in
  I1 (app w) /\ I2 (app w) /\
  saved_favorites (store w) = Json (favorites (app w)) /\
  saved_playlists (store w) = Json (playlists (app w)).

(** Each key is loaded whatever happens to the other two. *)
Definition load_independent (env : Env) (s : Store) (fs : list string) (t : N) : Prop :=
  let w := mount env s fs t in
  (corrupt (saved_favorites s) = false ->
   favorites (app w) = slot_value (saved_favorites s)) /\
  (corrupt (saved_playlists s) = false ->
   playlists (app w) = slot_value (saved_playlists s)).

(** The catalog is pruned although the file deletion fails. *)
Definition pruned_despite_delete_failure (env : Env) (w : World) (songId : string) : Prop :=
  forall song,
    find (fun s => song_id s =? songId) (songs (app w)) = Some song ->
    truthy (song_uri song) = true ->
    In (song_uri song) (files w) ->
    delete_fails env (song_uri song) = true ->
    let w' := exec (deleteSong env (app w) songId) w in
    ~ In songId (song_ids (songs (app w'))) /\
    ~ In songId (favorites (app w')) /\
    (forall p, In p (playlists (app w')) -> ~ In songId (pl_songs p)).

(** A failed engine creation leaves the session Idle. *)
Definition idle_after_failed_play (env : Env) (w : World) (song : Song) : Prop :=
  create_fails env (song_uri song) = true ->
  Idle (app (step env w (OpPlaySong song))).

(** Deleting an id that is no song's and not the current song's changes
    nothing. *)
Definition delete_unknown_is_noop (env : Env) (w : World) (songId : string) : Prop :=
  ~ In songId (song_ids (songs (app w))) ->
  has_id (currentSong (app w)) songId = false ->
  let w' := exec (deleteSong env (app w) songId) w in
  songs (app w') = songs (app w) /\
  favorites (app w') = favorites (app w) /\
  playlists (app w') = playlists (app w) /\
  session (app w') = session (app w).

(** *** Concrete devices

    The catalog of the specification's scenario (songs 1 and 2, favorite 1,
    playlist Mix), and variants of what the device holds. *)

Module Scenario.

(** Nothing fails; a copy is over within the millisecond. *)
Definition env : Env :=
  mkEnv "file:///doc/" (fun _ => false) (fun _ => false) (fun _ => false)
        (fun _ => false) (fun _ => 0%N).

(** The file of [b.mp3] cannot be deleted. *)
Definition env_undeletable : Env :=
  mkEnv "file:///doc/" (fun path => path =? "file:///doc/music/b.mp3")
        (fun _ => false) (fun _ => false) (fun _ => false) (fun _ => 0%N).

(** The file of [b.mp3] cannot be decoded. *)
Definition env_unplayable : Env :=
  mkEnv "file:///doc/" (fun _ => false) (fun _ => false)
        (fun path => path =? "file:///doc/music/b.mp3") (fun _ => false)
        (fun _ => 0%N).

Definition songA : Song := mkSong "1" "a.mp3" "file:///doc/music/a.mp3".
Definition songB : Song := mkSong "2" "b.mp3" "file:///doc/music/b.mp3".
Definition mix : Playlist := mkPlaylist "p1" "Mix" ["1"; "2"].

Definition disk : list string :=
  ["file:///doc/music/"; "file:///doc/music/a.mp3"; "file:///doc/music/b.mp3"].

(** Songs 1 and 2, favorite 1, playlist Mix with both. *)
Definition saved : Store :=
  mkStore (Json [songA; songB]) (Json ["1"]) (Json [mix]).

(** The same after a partial write: song 2 is gone from the song list
    but still a favorite and still in Mix. *)
Definition saved_dangling : Store :=
  mkStore (Json [songA]) (Json ["1"; "2"]) (Json [mix]).

(** The favorites text is corrupt, the playlists are fine. *)
Definition saved_corrupt_favorites : Store :=
  mkStore (Json [songA; songB]) Malformed (Json [mix]).

(** Mix holds song 1 only. *)
Definition solo : Playlist := mkPlaylist "p1" "Mix" ["1"].
Definition saved_solo : Store :=
  mkStore (Json [songA; songB]) (Json ["1"]) (Json [solo]).

Definition t0 : N := 1700000000000.

End Scenario.

(** ** The rest of the component *)

(** [getDisplaySongs] (lines 329-336): the songs the list shows. *)
Definition getDisplaySongs (r : AppState) : list Song :=
  match currentView r with
  | ViewFavorites =>
      filter (fun song => includes (song_id song) (favorites r)) (songs r)
  | ViewPlaylist =>
      match selectedPlaylist r with
      | Some p => filter (fun song => includes (song_id song) (pl_songs p)) (songs r)
      | None => songs r
      end
  | ViewAll => songs r
  end.

(** The largest whole number below which every whole number is a Number
    ([Number.MAX_SAFE_INTEGER], 2^53 - 1). *)
Definition MAX_SAFE_INTEGER : N := 9007199254740991.

(** [formatTime] (lines 323-327) on a whole number of milliseconds up to
    [MAX_SAFE_INTEGER]: [Math.floor(millis / 60000)] minutes, and the rest
    in seconds through [toFixed(0)], which rounds to the nearest whole
    number, a half upwards; a seconds text below 10 gets a leading zero.
    In that range the Number arithmetic of the source gives the whole
    quotient and the exact remainder, and the minutes print in decimal;
    beyond it this definition does not speak for the source. *)
Definition formatTime (millis : N) : string :=
  let minutes := (millis / 60000)%N in
  let seconds := ((millis mod 60000 + 500) / 1000)%N in
  toString minutes ++ ":" ++ (if (seconds <? 10)%N then "0" else "") ++ toString seconds.

(** *** What the component keeps *)

(** The favorites hold no id twice. *)
Definition favorites_unique (a : AppState) : Prop := NoDup (favorites a).

(** The store holds the favorites that are in memory. *)
Definition favorites_persisted (w : World) : Prop :=
  corrupt (saved_favorites (store w)) = false /\
  slot_value (saved_favorites (store w)) = favorites (app w).

(** The store holds the playlists that are in memory. *)
Definition playlists_persisted (w : World) : Prop :=
  corrupt (saved_playlists (store w)) = false /\
  slot_value (saved_playlists (store w)) = playlists (app w).

(** The store holds the songs that are in memory. *)
Definition songs_persisted (w : World) : Prop :=
  corrupt (saved_songs (store w)) = false /\
  slot_value (saved_songs (store w)) = songs (app w).

(** The catalog part of the hooks. *)
Definition catalog (a : AppState) :=
  (songs a, favorites a, playlists a).

(** The operations that can change the song list, the favorites, the
    playlists. *)
Definition changes_songs (op : Op) : bool :=
  match op with
  | OpPickSong _ | OpDeleteSong _ => true
  | _ => false
  end.

Definition changes_favorites (op : Op) : bool :=
  match op with
  | OpToggleFavorite _ | OpDeleteSong _ => true
  | _ => false
  end.

Definition changes_playlists (op : Op) : bool :=
  match op with
  | OpCreatePlaylist | OpDeletePlaylist _ _ | OpAddToPlaylist _ | OpDeleteSong _ => true
  | _ => false
  end.

(** The file store after the mount effect: the music directory is there. *)
Definition mounted_files (env : Env) (fs : list string) : list string :=
  if existsb (String.eqb (MUSIC_DIRECTORY env)) fs then fs
  else MUSIC_DIRECTORY env :: fs.

(** The hooks after a load that set the three arrays. *)
Definition loadedApp (loadedSongs : list Song) (loadedFavorites : list string)
    (loadedPlaylists : list Playlist) : AppState :=
  mkApp None loadedSongs None false 0 0 false loadedFavorites loadedPlaylists
        false "" None false None ViewAll.

(** The name [pickSong] gives a file picked at time [t], and the song
    record it appends when the copy is over at time [t']. *)
Definition pickedName (file : Asset) (t : N) : string :=
  if truthy (asset_name file) then asset_name file
  else "song_" ++ toString t ++ ".mp3".

Definition pickedSong (env : Env) (file : Asset) (t t' : N) : Song :=
  mkSong (toString t') (pickedName file t) (MUSIC_DIRECTORY env ++ pickedName file t).

(** The time at which a copy of [file] that starts in [w] is over. *)
Definition copied_at (env : Env) (file : Asset) (w : World) : N :=
  (now w + copy_millis env (asset_uri file))%N.

(** ** The first version of the player ([src/App.js])

    The component without storage: songs are the picked assets, kept in
    memory only.  Same conventions: [r] is the render a handler closes
    over; the engine is the list of live handles. *)

Module Basic.

(** The hooks of [App] (lines 7-10). *)
Record State := mkState {
  sound : option Handle;
  songs : list Asset;
  playing : bool;
  currentSong : option Asset
}.

Definition initialState : State := mkState None [] false None.

Record World := mkWorld {
  app : State;
  live : list Handle;
  next_handle : Handle;
  log : list Event
}.

Definition initialWorld : World := mkWorld initialState [] 0 [].

Definition emit (e : Event) (w : World) : World :=
  mkWorld (app w) (live w) (next_handle w) (log w ++ [e]).

Definition setSound (v : option Handle) (w : World) : World :=
  mkWorld (mkState v (songs (app w)) (playing (app w)) (currentSong (app w)))
          (live w) (next_handle w) (log w).
Definition setSongs (v : list Asset) (w : World) : World :=
  mkWorld (mkState (sound (app w)) v (playing (app w)) (currentSong (app w)))
          (live w) (next_handle w) (log w).
Definition setPlaying (v : bool) (w : World) : World :=
  mkWorld (mkState (sound (app w)) (songs (app w)) v (currentSong (app w)))
          (live w) (next_handle w) (log w).
Definition setCurrentSong (v : option Asset) (w : World) : World :=
  mkWorld (mkState (sound (app w)) (songs (app w)) (playing (app w)) v)
          (live w) (next_handle w) (log w).

Definition unloadAsync (h : Handle) (w : World) : World :=
  emit (EvUnload h)
       (mkWorld (app w) (filter (fun x => negb (x =? h)%nat) (live w))
                (next_handle w) (log w)).

(** [pickSongs] (lines 36-54); [result] is the list of assets when the
    picker was not cancelled and returned assets. *)
Definition pickSongs (r : State) (result : option (list Asset)) (w : World) : World :=
  match result with
  | Some assets =>
      emit (EvAlert "Success"
              ("Added " ++ toString (N.of_nat (List.length assets)) ++ " song(s)"))
           (setSongs (songs r ++ assets) w)
  | None => w
  end.

(** [playSound] (lines 56-80). *)
Definition playSound (env : Env) (r : State) (song : Asset) (w : World) : World :=
  let w1 := match sound r with
            | Some s => unloadAsync s w
            | None => w
            end in
  if create_fails env (asset_uri song) then
    emit (EvAlert "Error" "Failed to play audio file. Make sure it's a valid MP3.")
         (emit (EvConsoleError "Error playing sound:") w1)
  else
    let h := next_handle w1 in
    let w2 := emit (EvCreate (asset_uri song) h)
                   (mkWorld (app w1) (h :: live w1) (S h) (log w1)) in
    emit (EvAlert "Now Playing" (asset_name song))
         (setCurrentSong (Some song) (setPlaying true (setSound (Some h) w2))).

(** [onPlaybackStatusUpdate] (lines 82-86). *)
Definition onPlaybackStatusUpdate (status : PlaybackStatus) (w : World) : World :=
  if status_didJustFinish status then setPlaying false w else w.

(** [pauseSound], [resumeSound], [stopSound] (lines 88-107). *)
Definition pauseSound (r : State) (w : World) : World :=
  match sound r with
  | Some s => setPlaying false (emit (EvPause s) w)
  | None => w
  end.

Definition resumeSound (r : State) (w : World) : World :=
  match sound r with
  | Some s => setPlaying true (emit (EvPlay s) w)
  | None => w
  end.

Definition stopSound (r : State) (w : World) : World :=
  match sound r with
  | Some s => setPlaying false (emit (EvStop s) w)
  | None => w
  end.

(** The cleanup of the mount effect (lines 13-34): it unloads the [sound]
    of the render the effect was created in. *)
Definition cleanup (r : State) (w : World) : World :=
  match sound r with
  | Some s => unloadAsync s w
  | None => w
  end.

(** The effect has no dependencies, so it is created once, in the first
    render. *)
Definition unmount (w : World) : World := cleanup initialState w.

Inductive Op :=
| OpPickSongs (result : option (list Asset))
| OpPlaySound (song : Asset)
| OpStatus (status : PlaybackStatus)
| OpPause
| OpResume
| OpStop.

Definition step (env : Env) (w : World) (op : Op) : World :=
  match op with
  | OpPickSongs result => pickSongs (app w) result w
  | OpPlaySound song => playSound env (app w) song w
  | OpStatus status => onPlaybackStatusUpdate status w
  | OpPause => pauseSound (app w) w
  | OpResume => resumeSound (app w) w
  | OpStop => stopSound (app w) w
  end.

Definition run (env : Env) (ops : list Op) (w : World) : World :=
  fold_left (step env) ops w.

(** The only handle that can be live is the one the [sound] hook holds. *)
Definition session_ok (w : World) : Prop :=
  live w = [] \/ exists h, live w = [h] /\ sound (app w) = Some h.

End Basic.

(** *** More concrete devices *)

Module Device.

(** No store write succeeds. *)
Definition env_readonly : Env :=
  mkEnv "file:///doc/" (fun _ => false) (fun _ => false) (fun _ => false)
        (fun _ => true) (fun _ => 0%N).

(** No copy succeeds. *)
Definition env_nocopy : Env :=
  mkEnv "file:///doc/" (fun _ => false) (fun _ => true) (fun _ => false)
        (fun _ => false) (fun _ => 0%N).

(** Nothing fails; a copy takes 7 ms. *)
Definition env_slowcopy : Env :=
  mkEnv "file:///doc/" (fun _ => false) (fun _ => false) (fun _ => false)
        (fun _ => false) (fun _ => 7%N).

(** A file the picker returns. *)
Definition picked : Asset := mkAsset "c.mp3" "content://downloads/c.mp3".

(** A file the picker returns without a name. *)
Definition unnamed : Asset := mkAsset "" "content://downloads/15".

(** The scenario's catalog, mounted. *)
Definition mounted : World :=
  mount Scenario.env Scenario.saved Scenario.disk Scenario.t0.

(** A status the engine reports at the end of a track. *)
Definition finished : PlaybackStatus := mkStatus true 180000 180000 false true.

End Device.


(** * Verification *)

(** ** Arrays *)

Lemma filter_same_length {A} (f : A -> bool) (l : list A) :
  List.length (filter f l) = List.length l -> filter f l = l.
Proof.
  induction l as [|x l IH]; simpl; [reflexivity|].
  destruct (f x); simpl; intros H.
  - f_equal. apply IH. lia.
  - pose proof (filter_length_le f l). lia.
Qed.

Lemma includes_In (x : string) (arr : list string) :
  includes x arr = true <-> In x arr.
Proof.
  unfold includes. rewrite existsb_exists. split.
  - intros (y & Hy & Heq). apply String.eqb_eq in Heq. now subst.
  - intros H. exists x. split; [exact H | apply String.eqb_refl].
Qed.

Lemma without_In (songId id : string) (ids : list string) :
  In id (without songId ids) <-> In id ids /\ id <> songId.
Proof.
  unfold without. rewrite filter_In, negb_true_iff, String.eqb_neq. reflexivity.
Qed.

Lemma without_absent (songId : string) (ids : list string) :
  ~ In songId ids -> without songId ids = ids.
Proof.
  intros H. unfold without. induction ids as [|x l IH]; simpl; [reflexivity|].
  destruct (String.eqb_spec x songId) as [->|_]; simpl.
  - exfalso. apply H. now left.
  - f_equal. apply IH. intros Hin. apply H. now right.
Qed.

Lemma without_NoDup (songId : string) (ids : list string) :
  NoDup ids -> NoDup (without songId ids).
Proof. apply NoDup_filter. Qed.

Lemma songs_without_In (songId : string) (l : list Song) :
  ~ In songId (song_ids (filter (fun song => negb (song_id song =? songId)) l)).
Proof.
  unfold song_ids. rewrite in_map_iff. intros (x & Hid & Hin).
  apply filter_In in Hin. destruct Hin as [_ Hneq].
  rewrite <- Hid, String.eqb_refl in Hneq. discriminate.
Qed.

Lemma songs_without_absent (songId : string) (l : list Song) :
  ~ In songId (song_ids l) ->
  filter (fun song => negb (song_id song =? songId)) l = l.
Proof.
  induction l as [|x l IH]; simpl; intros H; [reflexivity|].
  destruct (String.eqb_spec (song_id x) songId) as [Heq|_]; simpl.
  - exfalso. apply H. now left.
  - f_equal. apply IH. intros Hin. apply H. now right.
Qed.

Lemma find_absent (songId : string) (l : list Song) :
  ~ In songId (song_ids l) -> find (fun s => song_id s =? songId) l = None.
Proof.
  induction l as [|x l IH]; simpl; intros H; [reflexivity|].
  destruct (String.eqb_spec (song_id x) songId) as [Heq|_].
  - exfalso. apply H. now left.
  - apply IH. intros Hin. apply H. now right.
Qed.

Lemma with_songs_same (p : Playlist) : with_songs (pl_songs p) p = p.
Proof. now destruct p. Qed.

Lemma playlists_without_absent (songId : string) (l : list Playlist) :
  (forall p, In p l -> ~ In songId (pl_songs p)) ->
  map (fun p => with_songs (without songId (pl_songs p)) p) l = l.
Proof.
  induction l as [|p l IH]; simpl; intros H; [reflexivity|].
  rewrite without_absent by (apply H; now left).
  rewrite with_songs_same. f_equal. apply IH. intros q Hq. apply H. now right.
Qed.

(** ** Running the handlers symbolically *)

Ltac unfold_async :=
  unfold addSongToPlaylist, step, exec, completes, handle,
    pickSong, playSong, onPlaybackStatusUpdate, pollStatus, togglePlayPause, seekTo,
    deleteSong, stopSound, toggleFavorite, createPlaylist, deletePlaylist,
    addToPlaylist, chooseSongToAdd, sound_cleanup,
    saveSongsToStorage, saveFavorites, savePlaylists,
    setItem_songs, setItem_favorites, setItem_playlists,
    getItem_songs, getItem_favorites, getItem_playlists, if_saved,
    getInfoAsync, makeDirectoryAsync, deleteAsync, copyAsync,
    createAsync, unloadAsync, stopAsync, pauseAsync, playAsync, setPositionAsync,
    Alert_alert, console_error, Date_now, elapse,
    setSound, setSongs, setCurrentSong, setIsPlaying, setPosition, setDuration,
    setIsLoading, setFavorites, setPlaylists, setShowCreatePlaylist,
    setNewPlaylistName, setSelectedPlaylist, setShowAddToPlaylist, setSongToAdd,
    setCurrentView,
    try_catch, try_finally, bind, when, effect, ret, throw in *.

(** Case analysis on the next condition the code branches on. *)
Ltac split_branch :=
  match goal with
  | |- context [if ?c then _ else _] =>
      lazymatch type of c with bool => destruct c eqn:? end
  | |- context [match ?c with Some _ => _ | None => _ end] =>
      lazymatch type of c with option _ => destruct c eqn:? end
  end.
Ltac split_branches := repeat (simpl; split_branch); simpl.

(** ** Catalog store: [loadSavedData] *)

Section Load.

Variable env : Env.

Lemma keep_existing_spec (saved acc : list Song) (w : World) :
  keep_existing saved acc w = (Done (acc ++ existing (files w) saved)%list, w).
Proof.
  revert acc. induction saved as [|song rest IH]; intros acc; simpl.
  - now rewrite app_nil_r.
  - unfold bind, getInfoAsync. rewrite IH.
    destruct (existsb _ _); [rewrite <- app_assoc|]; reflexivity.
Qed.

(** What the mount effect leaves in memory and in the store. *)
Lemma loadSavedData_spec (s : Store) (fs : list string) (t : N) :
  let w := mount env s fs t in
  completes (loadSavedData env) (boot s fs t) = true /\
  isLoading (app w) = false /\
  songs (app w) = existing (files w) (slot_value (saved_songs s)) /\
  favorites (app w) =
    (if songs_step_throws env s (files w) then []
     else slot_value (saved_favorites s)) /\
  playlists (app w) =
    (if songs_step_throws env s (files w) || corrupt (saved_favorites s) then []
     else slot_value (saved_playlists s)) /\
  saved_favorites (store w) = saved_favorites s /\
  saved_playlists (store w) = saved_playlists s /\
  (store_fails env SONGS_KEY = false ->
   forall l, saved_songs s = Json l -> saved_songs (store w) = Json (songs (app w))) /\
  forallb (fun e => negb (writes_other_key e)) (log w) = true.
Proof.
  destruct s as [ss sf sp].
  unfold mount, boot, loadSavedData, songs_step_throws.
  unfold_async. simpl.
  destruct (existsb (String.eqb (MUSIC_DIRECTORY env)) fs) eqn:Hdir; simpl.
  all: destruct ss as [| | |ls]; simpl;
    [ | |
      | rewrite keep_existing_spec; simpl;
        match goal with
        | |- context [(?a =? ?b)%nat] => destruct (a =? b)%nat eqn:Hlen
        end; simpl; [ | destruct (store_fails env SONGS_KEY) eqn:Hst ] ]; simpl.
  all: destruct sf as [| | |lf]; simpl.
  all: destruct sp as [| | |lp]; simpl.
  all: repeat split; simpl; try rewrite Hlen; try rewrite Hst; simpl;
       try reflexivity; try congruence.
  all: intros _ l _; apply Nat.eqb_eq in Hlen; f_equal; symmetry;
       apply filter_same_length; exact Hlen.
Qed.

(** C9, as the code has it: the three keys are read in the order songs,
    favorites, playlists inside one [try].  The load never fails.  The
    songs in memory are the stored songs whose file exists.  A missing key
    (or an empty text) yields the empty default for that structure only; a
    malformed text ends the load there, so that structure and the ones read
    after it keep the empty default; a failed write-back of the pruned
    songs ends the load after the songs, so the pruned songs are in memory
    and the favorites and the playlists keep the empty default. *)
Theorem load_reads_keys_in_order (s : Store) (fs : list string) (t : N) :
  let w := mount env s fs t in
  completes (loadSavedData env) (boot s fs t) = true /\
  isLoading (app w) = false /\
  songs (app w) = existing (files w) (slot_value (saved_songs s)) /\
  favorites (app w) =
    (if songs_step_throws env s (files w) then []
     else slot_value (saved_favorites s)) /\
  playlists (app w) =
    (if songs_step_throws env s (files w) || corrupt (saved_favorites s) then []
     else slot_value (saved_playlists s)).
Proof.
  destruct (loadSavedData_spec s fs t) as (H1 & H2 & H3 & H4 & H5 & _).
  cbv zeta. repeat split; assumption.
Qed.

(** C1, as the code has it: the load never prunes the favorites or the
    playlists and never writes their keys.  For every store, the favorites
    in memory are the stored favorites as they are, dangling ids included,
    when the load gets to the favorites key (the songs step did not throw),
    and the empty default otherwise; the playlists in memory are the stored
    playlists as they are when the load gets to the playlists key (and the
    favorites text is not malformed), and the empty default otherwise.
    Only the song list is pruned (of the songs whose file is missing); it
    is written back when the songs key can be written. *)
Theorem load_keeps_references (s : Store) (fs : list string) (t : N) :
  let w := mount env s fs t in
  saved_favorites (store w) = saved_favorites s /\
  saved_playlists (store w) = saved_playlists s /\
  forallb (fun e => negb (writes_other_key e)) (log w) = true /\
  favorites (app w) =
    (if songs_step_throws env s (files w) then []
     else slot_value (saved_favorites s)) /\
  playlists (app w) =
    (if songs_step_throws env s (files w) || corrupt (saved_favorites s) then []
     else slot_value (saved_playlists s)) /\
  songs (app w) = existing (files w) (slot_value (saved_songs s)) /\
  (store_fails env SONGS_KEY = false ->
   forall l, saved_songs s = Json l -> saved_songs (store w) = Json (songs (app w))).
Proof.
  destruct (loadSavedData_spec s fs t) as (_ & _ & H3 & H4 & H5 & H6 & H7 & H8 & H9).
  cbv zeta. repeat (split; [assumption|]). exact H8.
Qed.

End Load.

(** C9 fails as stated: with a malformed favorites text, the valid
    playlists are not loaded. *)
Lemma load_not_independent :
  ~ load_independent Scenario.env Scenario.saved_corrupt_favorites
      Scenario.disk Scenario.t0.
Proof.
  unfold load_independent. intros [_ H].
  specialize (H eq_refl). vm_compute in H. discriminate H.
Qed.

(** C1 fails as stated: song 2 is absent from the loaded songs and stays
    in the loaded favorites and in the loaded playlist. *)
Lemma load_does_not_prune :
  ~ load_prunes Scenario.env Scenario.saved_dangling Scenario.disk Scenario.t0.
Proof.
  unfold load_prunes. intros [H _].
  specialize (H "2"). vm_compute in H.
  destruct H as [H|[]]; [ | discriminate H].
  right. left. reflexivity.
Qed.

Lemma load_keeps_references_witness :
  let w := mount Scenario.env Scenario.saved_dangling Scenario.disk Scenario.t0 in
  favorites (app w) = ["1"; "2"] /\ playlists (app w) = [Scenario.mix] /\
  saved_favorites (store w) = Json ["1"; "2"] /\
  saved_playlists (store w) = Json [Scenario.mix].
Proof.
  destruct (load_keeps_references Scenario.env Scenario.saved_dangling
              Scenario.disk Scenario.t0) as (Hf & Hp & _ & H1 & H2 & _).
  cbv zeta. rewrite Hf, Hp, H1, H2. repeat split; reflexivity.
Defined.

(** ** Library manager: [deleteSong] *)

Section Delete.

Variable env : Env.

(** C2: when the song's file can be deleted and the favorites and playlists
    keys can be written, [deleteSong(songId)] leaves the song list without
    the songs of that id, the favorites without that id and every playlist
    without that id; all other songs, favorites, playlists and playlist
    entries stay, in their order. *)
Theorem deleteSong_removes (w : World) (songId : string) :
  In songId (song_ids (songs (app w))) ->
  (forall song, find (fun s => song_id s =? songId) (songs (app w)) = Some song ->
                delete_fails env (song_uri song) = false) ->
  store_fails env FAVORITES_KEY = false ->
  store_fails env PLAYLISTS_KEY = false ->
  let w' := exec (deleteSong env (app w) songId) w in
  songs (app w') = filter (fun song => negb (song_id song =? songId)) (songs (app w)) /\
  favorites (app w') = without songId (favorites (app w)) /\
  playlists (app w') =
    map (fun p => with_songs (without songId (pl_songs p)) p) (playlists (app w)) /\
  ~ In songId (song_ids (songs (app w'))) /\
  ~ In songId (favorites (app w')) /\
  (forall p, In p (playlists (app w')) -> ~ In songId (pl_songs p)).
Proof.
  intros _ Hdel Hfav Hpl.
  assert (E : let w' := exec (deleteSong env (app w) songId) w in
    songs (app w') = filter (fun song => negb (song_id song =? songId)) (songs (app w)) /\
    favorites (app w') = without songId (favorites (app w)) /\
    playlists (app w') =
      map (fun p => with_songs (without songId (pl_songs p)) p) (playlists (app w))).
  { unfold_async. rewrite Hfav, Hpl.
    destruct (find _ _) as [song|] eqn:Hfind; [rewrite (Hdel song eq_refl)|].
    all: destruct (negb (List.length _ =? List.length _)%nat) eqn:Hlen.
    all: split_branches; repeat split; try reflexivity.
    all: rewrite negb_false_iff, Nat.eqb_eq in Hlen; symmetry;
         apply filter_same_length; exact Hlen. }
  cbv zeta in *. destruct E as (Es & Ef & Ep). rewrite Es, Ef, Ep.
  repeat split; try reflexivity.
  - apply songs_without_In.
  - intros H. apply without_In in H. now destruct H.
  - intros p Hp. apply in_map_iff in Hp. destruct Hp as (q & <- & _). simpl.
    intros H. apply without_In in H. now destruct H.
Qed.

(** C3, as the code has it: when the deletion of the song's file raises,
    [deleteSong] reports the failure and leaves the song list, the
    favorites, the playlists, the store and the files as they were; I1-I3
    hold afterwards if they held before. *)
Theorem deleteSong_blocked_by_delete_failure (w : World) (songId : string) (song : Song) :
  find (fun s => song_id s =? songId) (songs (app w)) = Some song ->
  truthy (song_uri song) = true ->
  In (song_uri song) (files w) ->
  delete_fails env (song_uri song) = true ->
  let w' := exec (deleteSong env (app w) songId) w in
  songs (app w') = songs (app w) /\
  favorites (app w') = favorites (app w) /\
  playlists (app w') = playlists (app w) /\
  store w' = store w /\
  files w' = files w /\
  reported "Error" "Failed to delete song" w w' /\
  (I1 (app w) -> I1 (app w')) /\
  (I2 (app w) -> I2 (app w')) /\
  (I3 (app w) -> I3 (app w')).
Proof.
  intros Hfind Huri Hfile Hdel.
  assert (Hex : existsb (String.eqb (song_uri song)) (files w) = true).
  { apply existsb_exists. exists (song_uri song). split; [exact Hfile|apply String.eqb_refl]. }
  assert (E : let w' := exec (deleteSong env (app w) songId) w in
    songs (app w') = songs (app w) /\ favorites (app w') = favorites (app w) /\
    playlists (app w') = playlists (app w) /\ store w' = store w /\
    files w' = files w /\
    reported "Error" "Failed to delete song" w w').
  { unfold_async. rewrite Hfind, Huri, Hdel.
    destruct (has_id (currentSong (app w)) songId);
      [destruct (sound (app w))|]; simpl; rewrite Hex; simpl;
      repeat split;
      (eexists; split; [simpl; rewrite <- ?app_assoc; simpl; reflexivity | simpl; tauto]). }
  cbv zeta in *. destruct E as (Es & Ef & Ep & E').
  unfold I1, I2, I3. rewrite Es, Ef, Ep. repeat split; try apply E'; auto.
Qed.

(** C10, as the code has it: for an id that is no song's and not the current
    song's, [deleteSong] completes without an alert and leaves the song
    list, the session, the engine and the files unchanged; favorites and
    playlists are unchanged when the id occurs in none of them, and are
    otherwise pruned of it. *)
Theorem deleteSong_unknown_id (w : World) (songId : string) :
  ~ In songId (song_ids (songs (app w))) ->
  has_id (currentSong (app w)) songId = false ->
  let w' := exec (deleteSong env (app w) songId) w in
  completes (deleteSong env (app w) songId) w = true /\
  silent w w' /\
  songs (app w') = songs (app w) /\
  session (app w') = session (app w) /\
  live w' = live w /\
  files w' = files w /\
  (unreferenced songId (app w) ->
   favorites (app w') = favorites (app w) /\ playlists (app w') = playlists (app w)) /\
  (store_fails env FAVORITES_KEY = false ->
   store_fails env PLAYLISTS_KEY = false ->
   favorites (app w') = without songId (favorites (app w)) /\
   playlists (app w') =
     map (fun p => with_songs (without songId (pl_songs p)) p) (playlists (app w))).
Proof.
  intros Hnot Hcur.
  pose proof (find_absent songId _ Hnot) as Hfind.
  pose proof (songs_without_absent songId _ Hnot) as Hsongs.
  unfold_async. rewrite Hfind, Hcur, Hsongs. unfold session.
  destruct (negb (List.length _ =? List.length _)%nat) eqn:Hlen.
  all: destruct (store_fails env SONGS_KEY), (store_fails env FAVORITES_KEY),
         (store_fails env PLAYLISTS_KEY); simpl.
  all: repeat split; try reflexivity; try discriminate.
  all: try (eexists; split; [simpl; rewrite <- ?app_assoc; simpl; reflexivity | reflexivity]).
  all: try match goal with
           | H : unreferenced _ _ |- _ =>
               destruct H as [Hf Hp];
               first [ apply (without_absent _ _ Hf)
                     | apply (playlists_without_absent _ _ Hp) ]
           end.
  all: rewrite negb_false_iff, Nat.eqb_eq in Hlen; symmetry;
       apply filter_same_length; exact Hlen.
Qed.
End Delete.

(** The scenario of the specification: songs 1 and 2, favorite 1, playlist
    Mix with both; song 2 is deleted. *)
Lemma deleteSong_removes_witness :
  let w := mount Scenario.env Scenario.saved Scenario.disk Scenario.t0 in
  let w' := exec (deleteSong Scenario.env (app w) "2") w in
  (songs (app w) = [Scenario.songA; Scenario.songB] /\
   favorites (app w) = ["1"] /\
   playlists (app w) = [mkPlaylist "p1" "Mix" ["1"; "2"]]) /\
  (songs (app w') = [Scenario.songA] /\
   favorites (app w') = ["1"] /\
   playlists (app w') = [mkPlaylist "p1" "Mix" ["1"]]).
Proof.
  cbv zeta. split; [repeat split|].
  destruct (deleteSong_removes Scenario.env
              (mount Scenario.env Scenario.saved Scenario.disk Scenario.t0) "2")
    as (Hs & Hf & Hp & _).
  - right. left. reflexivity.
  - intros song _. reflexivity.
  - reflexivity.
  - reflexivity.
  - rewrite Hs, Hf, Hp. repeat split.
Defined.

(** C3 fails as stated: the file of song 2 cannot be deleted, and song 2
    stays in the song list. *)
Lemma delete_failure_blocks_pruning :
  ~ pruned_despite_delete_failure Scenario.env_undeletable
      (mount Scenario.env_undeletable Scenario.saved Scenario.disk Scenario.t0) "2".
Proof.
  intros H.
  destruct (H Scenario.songB eq_refl eq_refl) as [Hs _].
  - right. right. left. reflexivity.
  - reflexivity.
  - apply Hs. right. left. reflexivity.
Qed.

(** The same device: nothing of the catalog changed, and the user was
    told. *)
Lemma deleteSong_blocked_witness :
  let w := mount Scenario.env_undeletable Scenario.saved Scenario.disk Scenario.t0 in
  let w' := exec (deleteSong Scenario.env_undeletable (app w) "2") w in
  songs (app w') = [Scenario.songA; Scenario.songB] /\
  favorites (app w') = ["1"] /\
  playlists (app w') = [Scenario.mix] /\
  reported "Error" "Failed to delete song" w w'.
Proof.
  destruct (deleteSong_blocked_by_delete_failure Scenario.env_undeletable
              (mount Scenario.env_undeletable Scenario.saved Scenario.disk Scenario.t0)
              "2" Scenario.songB)
    as (Hs & Hf & Hp & _ & _ & Hr & _).
  - reflexivity.
  - reflexivity.
  - right. right. left. reflexivity.
  - reflexivity.
  - cbv zeta. rewrite Hs, Hf, Hp. repeat split. exact Hr.
Defined.

(** C10 fails as stated: id 2 is no song's, but it is a (dangling)
    favorite, and deleting it changes the favorites. *)
Lemma delete_unknown_prunes_dangling :
  ~ delete_unknown_is_noop Scenario.env
      (mount Scenario.env Scenario.saved_dangling Scenario.disk Scenario.t0) "2".
Proof.
  intros H.
  destruct H as (_ & Hf & _).
  - vm_compute. intros [H|[]]. discriminate H.
  - reflexivity.
  - vm_compute in Hf. discriminate Hf.
Qed.

(** An id nothing refers to: nothing changes. *)
Lemma deleteSong_unknown_id_witness :
  let w := mount Scenario.env Scenario.saved Scenario.disk Scenario.t0 in
  let w' := exec (deleteSong Scenario.env (app w) "7") w in
  songs (app w') = [Scenario.songA; Scenario.songB] /\
  favorites (app w') = ["1"] /\
  playlists (app w') = [Scenario.mix] /\
  session (app w') = session (app w).
Proof.
  destruct (deleteSong_unknown_id Scenario.env
              (mount Scenario.env Scenario.saved Scenario.disk Scenario.t0) "7")
    as (_ & _ & Hs & Hse & _ & _ & Hu & _).
  - vm_compute. intros [H|[H|[]]]; discriminate H.
  - reflexivity.
  - destruct Hu as [Hf Hp].
    + split.
      * vm_compute. intros [H|[]]. discriminate H.
      * intros p [<-|[]]. vm_compute. intros [H|[H|[]]]; discriminate H.
    + cbv zeta. rewrite Hs, Hf, Hp, Hse. repeat split.
Defined.


(** ** Playback session *)

Section Session.

Variable env : Env.

(** The handlers that neither load nor unload leave the session's sound,
    its current song and the engine alone. *)
Lemma handle_quiet (w : World) (op : Op) :
  loads_or_unloads op = false ->
  engine_view (exec (handle env (app w) op) w) = engine_view w.
Proof.
  intros Hq. destruct op; try discriminate Hq; clear Hq;
    unfold engine_view; unfold_async; split_branches; congruence.
Qed.

Lemma sound_cleanup_same (r : AppState) (w : World) :
  sound (app w) = sound r -> exec (sound_cleanup r) w = w.
Proof.
  intros H. unfold exec, sound_cleanup. rewrite H.
  destruct (sound r) as [h|]; [rewrite Nat.eqb_refl|]; reflexivity.
Qed.

Lemma sound_cleanup_congr (r : AppState) (w1 w2 : World) :
  engine_view w1 = engine_view w2 ->
  engine_view (exec (sound_cleanup r) w1) = engine_view (exec (sound_cleanup r) w2).
Proof.
  unfold engine_view. intros H. injection H as H1 H2 H3.
  unfold exec, sound_cleanup, unloadAsync, effect. rewrite H1.
  destruct (sound r) as [old|]; [destruct (sound (app w2)) as [new|] eqn:E|];
    [destruct (old =? new)%nat| |]; simpl; congruence.
Qed.

Lemma session_ok_view (w1 w2 : World) :
  engine_view w1 = engine_view w2 -> session_ok w1 -> session_ok w2.
Proof.
  unfold engine_view, session_ok. intros H. injection H as H1 H2 H3.
  now rewrite H1, H2, H3.
Qed.

Lemma step_quiet (w : World) (op : Op) :
  loads_or_unloads op = false -> engine_view (step env w op) = engine_view w.
Proof.
  intros Hq. unfold step.
  rewrite (sound_cleanup_congr _ _ w (handle_quiet w op Hq)).
  now rewrite sound_cleanup_same.
Qed.

Lemma deleteSong_engine_view (w : World) (songId : string) :
  engine_view (exec (deleteSong env (app w) songId) w) =
  engine_view (exec (when (has_id (currentSong (app w)) songId) (stopSound (app w))) w).
Proof.
  unfold engine_view. unfold_async. split_branches; congruence.
Qed.

Lemma filter_out_self (h : Handle) :
  filter (fun x => negb (x =? h)%nat) [h] = [].
Proof. simpl. now rewrite Nat.eqb_refl. Qed.

Ltac use_session_ok Hlive :=
  destruct Hlive as [Hlive|(h' & Hlive & Hh')];
  [ | try discriminate Hh'; try (injection Hh' as <-) ];
  rewrite ?Hlive; simpl; rewrite ?Nat.eqb_refl; simpl.

Ltac close_session_ok Hcur Hs :=
  split;
  [ let Hne := fresh in
    intros Hne; rewrite ?Hs; first [discriminate | exact (Hcur Hne) | congruence]
  | first [ left; reflexivity
          | right; eexists; split; [reflexivity | congruence] ] ].

Lemma playSong_session_ok (w : World) (song : Song) :
  session_ok w -> session_ok (step env w (OpPlaySong song)).
Proof.
  intros [Hcur Hlive]. unfold session_ok. unfold_async.
  destruct (sound (app w)) as [h0|] eqn:Hs;
  destruct (create_fails env (song_uri song)) eqn:Hc; simpl;
  rewrite ?Hs; simpl; rewrite ?Nat.eqb_refl; simpl.
  all: try (destruct (h0 =? next_handle w)%nat eqn:Hfresh; simpl;
            rewrite ?(Nat.eqb_sym (next_handle w) h0), ?Hfresh; simpl).
  all: use_session_ok Hlive.
  all: close_session_ok Hcur Hs.
Qed.

Lemma stopSound_session_ok (w : World) :
  session_ok w -> session_ok (step env w OpStopSound).
Proof.
  intros [Hcur Hlive]. unfold session_ok. unfold_async.
  destruct (sound (app w)) as [h0|] eqn:Hs; simpl; rewrite ?Hs; simpl.
  all: use_session_ok Hlive.
  all: close_session_ok Hcur Hs.
Qed.

Lemma deleteSong_step_view (w : World) (songId : string) :
  engine_view (step env w (OpDeleteSong songId)) =
  engine_view (if has_id (currentSong (app w)) songId
               then step env w OpStopSound else w).
Proof.
  unfold step. cbn [handle].
  rewrite (sound_cleanup_congr _ _ _ (deleteSong_engine_view w songId)).
  destruct (has_id (currentSong (app w)) songId); [reflexivity|].
  now rewrite sound_cleanup_same.
Qed.

(** [session_ok] is kept by every operation, hence holds in every world the
    mounted component can reach. *)
Lemma step_session_ok (w : World) (op : Op) :
  session_ok w -> session_ok (step env w op).
Proof.
  intros Hok. destruct (loads_or_unloads op) eqn:Hq.
  - destruct op; try discriminate Hq.
    + now apply playSong_session_ok.
    + now apply stopSound_session_ok.
    + apply (session_ok_view _ _ (eq_sym (deleteSong_step_view w songId))).
      destruct (has_id _ _); [now apply stopSound_session_ok | exact Hok].
  - apply (session_ok_view _ _ (eq_sym (step_quiet w op Hq))). exact Hok.
Qed.

Lemma run_session_ok (ops : list Op) (w : World) :
  session_ok w -> session_ok (run env ops w).
Proof.
  revert w. induction ops as [|op ops IH]; intros w Hok; [exact Hok|].
  simpl. apply IH. now apply step_session_ok.
Qed.

Lemma mount_session_ok (s : Store) (fs : list string) (t : N) :
  session_ok (mount env s fs t).
Proof.
  apply (session_ok_view (boot s fs t)).
  - destruct s as [ss sf sp]. unfold engine_view, mount, boot, loadSavedData.
    unfold_async. simpl.
    destruct (existsb _ fs); simpl.
    all: destruct ss as [| | |ls]; simpl;
      [ | | | rewrite keep_existing_spec; simpl ].
    all: split_branches.
    all: destruct sf as [| | |lf]; simpl.
    all: destruct sp as [| | |lp]; simpl.
    all: reflexivity.
  - split; [intros H; now elim H | now left].
Qed.

Lemma reachable_session_ok (s : Store) (fs : list string) (t : N) (ops : list Op) :
  session_ok (run env ops (mount env s fs t)).
Proof. apply run_session_ok, mount_session_ok. Qed.

Lemma session_ok_I5 (w : World) : session_ok w -> I5 w.
Proof.
  intros [_ [H|(h & H & _)]]; unfold I5; rewrite H; simpl; lia.
Qed.

(** *** Replaying the setter calls *)

Lemma replay_app (evs1 evs2 : list Event) (a : AppState) :
  replay (evs1 ++ evs2) a = replay evs2 (replay evs1 a).
Proof. apply fold_left_app. Qed.

Lemma replay_keeps_idle (evs : list Event) (a : AppState) :
  forallb (fun e => negb (session_event e)) evs = true ->
  Idle a -> Idle (replay evs a).
Proof.
  revert a. induction evs as [|e evs IH]; intros a H Ha; [exact Ha|].
  simpl in H. apply andb_prop in H. destruct H as [He H].
  change (replay (e :: evs) a) with (replay evs (apply_event e a)).
  apply (IH _ H). destruct e; try discriminate He; exact Ha.
Qed.

Lemma forallb_prefix {A} (f : A -> bool) (l pre post : list A) :
  l = (pre ++ post)%list -> forallb f l = true -> forallb f pre = true.
Proof. intros -> H. rewrite forallb_app in H. now apply andb_prop in H. Qed.

Lemma replay_keeps_catalog (evs : list Event) (a : AppState) :
  forallb (fun e => negb (catalog_event e)) evs = true ->
  catalog (replay evs a) = catalog a.
Proof.
  revert a. induction evs as [|e evs IH]; intros a H; [reflexivity|].
  simpl in H. apply andb_prop in H. destruct H as [He H].
  change (replay (e :: evs) a) with (replay evs (apply_event e a)).
  rewrite (IH _ H). destruct e; try discriminate He; reflexivity.
Qed.

Lemma no_catalog_event (evs : list Event) :
  existsb catalog_event evs = false ->
  forallb (fun e => negb (catalog_event e)) evs = true.
Proof.
  induction evs as [|e evs IH]; simpl; [reflexivity|].
  destruct (catalog_event e); simpl; [discriminate | exact IH].
Qed.

(** After the events of a full stop, and whatever follows that is no
    session setter: a sequence of the first events that holds a catalog
    event, or after which a render sees another catalog than before, begins
    with the whole stop and shows the empty session. *)
Lemma resets_first (h : Handle) (tail : list Event) (a : AppState) :
  forallb (fun e => negb (session_event e)) tail = true ->
  forall pre post,
    (reset_events h ++ tail)%list = (pre ++ post)%list ->
    existsb catalog_event pre = true \/ catalog (replay pre a) <> catalog a ->
    (exists mid, pre = (reset_events h ++ mid)%list) /\ Idle (replay pre a).
Proof.
  intros Htail pre post Heq Hseen.
  assert (Hev : existsb catalog_event pre = true).
  { destruct Hseen as [H|H]; [exact H|].
    destruct (existsb catalog_event pre) eqn:E; [reflexivity|].
    exfalso. apply H. apply replay_keeps_catalog, no_catalog_event, E. }
  apply app_eq_app in Heq. destruct Heq as (mid & [[Hr Hp]|[Hp Ht]]).
  - exfalso.
    assert (Hnone : forallb (fun e => negb (catalog_event e)) pre = true).
    { apply (forallb_prefix _ (reset_events h) pre mid); [exact Hr | reflexivity]. }
    clear - Hev Hnone. induction pre as [|e pre IH]; simpl in *; [discriminate|].
    apply andb_prop in Hnone. destruct Hnone as [He Hnone].
    destruct (catalog_event e); [discriminate He | now apply IH].
  - subst pre. split; [now exists mid|].
    rewrite replay_app. apply replay_keeps_idle.
    + apply (forallb_prefix _ tail mid post Ht Htail).
    + repeat split.
Qed.

Ltac new_events :=
  eexists; repeat split;
  [ simpl; rewrite <- ?app_assoc; simpl; reflexivity | reflexivity .. ].

(** After the stop it may begin with, [deleteSong] calls no session setter
    and commands the engine no more. *)
Lemma deleteSong_after_stop (r : AppState) (songId : string) (w : World) :
  let w0 := exec (when (has_id (currentSong r) songId) (stopSound r)) w in
  let w' := exec (deleteSong env r songId) w in
  exists tail,
    log w' = (log w0 ++ tail)%list /\
    app w' = replay tail (app w0) /\
    forallb (fun e => negb (session_event e)) tail = true /\
    live w' = live w0.
Proof.
  cbv zeta. unfold_async.
  destruct (store_fails env SONGS_KEY) eqn:E1,
           (store_fails env FAVORITES_KEY) eqn:E2,
           (store_fails env PLAYLISTS_KEY) eqn:E3.
  all: destruct (negb (Nat.eqb
                   (List.length
                      (filter (fun id => negb (String.eqb id songId)) (favorites r)))
                   (List.length (favorites r)))) eqn:E4.
  all: destruct (has_id (currentSong r) songId) eqn:E5;
       [destruct (sound r) as [h|] eqn:E6 | ].
  all: destruct (find (fun s => song_id s =? songId) (songs r)) as [s0|] eqn:E7;
       [ destruct (truthy (song_uri s0)) eqn:E8;
         [ destruct (existsb (String.eqb (song_uri s0)) (files w)) eqn:E9;
           [ destruct (delete_fails env (song_uri s0)) eqn:E10 | ] | ] | ].
  all: simpl; rewrite ?E9; simpl.
  all: new_events.
Qed.

Lemma stopSound_spec (r : AppState) (h : Handle) (w : World) :
  sound r = Some h ->
  let w0 := exec (stopSound r) w in
  log w0 = (log w ++ reset_events h)%list /\
  app w0 = replay (reset_events h) (app w) /\
  live w0 = filter (fun x => negb (x =? h)%nat) (live w).
Proof.
  intros Hs. unfold_async. rewrite Hs. simpl.
  rewrite <- ?app_assoc. repeat split.
Qed.

(** C4: in every reachable world whose current song has id [songId],
    the events of [deleteSong(songId)] begin with the full stop: [stopAsync]
    and [unloadAsync] on the session's handle, then the five session
    setters, after which the session is empty; no session setter follows.
    Hence nothing of the removal shows before the reset: every sequence of
    the call's first events that holds a setter of the songs, the favorites
    or the playlists, a store write or a file deletion, or after which a
    render sees another catalog than before, begins with the whole stop and
    shows the empty session.  The call ends in the empty session with no
    live handle. *)
Theorem deleteSong_current_resets_first
    (s : Store) (fs : list string) (t : N) (ops : list Op) (songId : string) (c : Song) :
  let w := run env ops (mount env s fs t) in
  currentSong (app w) = Some c ->
  song_id c = songId ->
  let w' := step env w (OpDeleteSong songId) in
  exists h tail,
    sound (app w) = Some h /\
    log w' = (log w ++ reset_events h ++ tail)%list /\
    app w' = replay (reset_events h ++ tail) (app w) /\
    Idle (replay (reset_events h) (app w)) /\
    catalog (replay (reset_events h) (app w)) = catalog (app w) /\
    forallb (fun e => negb (session_event e)) tail = true /\
    (forall pre post,
       (reset_events h ++ tail)%list = (pre ++ post)%list ->
       existsb catalog_event pre = true \/
       catalog (replay pre (app w)) <> catalog (app w) ->
       (exists mid, pre = (reset_events h ++ mid)%list) /\
       Idle (replay pre (app w))) /\
    Idle (app w') /\
    live w' = [].
Proof.
  cbv zeta. intros Hc Hid.
  pose proof (reachable_session_ok s fs t ops) as [Hcur Hlive].
  set (w := run env ops (mount env s fs t)) in *.
  destruct (sound (app w)) as [h|] eqn:Hs;
    [ | exfalso; apply Hcur; [rewrite Hc; discriminate | reflexivity] ].
  assert (Hhas : has_id (currentSong (app w)) songId = true).
  { rewrite Hc. simpl. rewrite Hid. apply String.eqb_refl. }
  destruct (deleteSong_after_stop (app w) songId w) as (tail & Hlog & Happ & Htail & Hl).
  rewrite Hhas in Hlog, Happ, Hl. unfold when in Hlog, Happ, Hl.
  destruct (stopSound_spec (app w) h w Hs) as (Hlog0 & Happ0 & Hl0).
  rewrite Hlog0 in Hlog. rewrite Happ0 in Happ. rewrite Hl0 in Hl.
  assert (Hidle : Idle (app (exec (deleteSong env (app w) songId) w))).
  { rewrite Happ. apply replay_keeps_idle; [exact Htail | repeat split]. }
  assert (Hnil : live (exec (deleteSong env (app w) songId) w) = []).
  { rewrite Hl. destruct Hlive as [->|(h' & -> & Hh')]; [reflexivity|].
    injection Hh' as <-. apply filter_out_self. }
  exists h, (tail ++ [EvUnload h])%list.
  unfold step. cbn [handle].
  set (wd := exec (deleteSong env (app w) songId) w) in *.
  assert (Hw' : exec (sound_cleanup (app w)) wd =
                emit (EvUnload h) (with_live (filter (fun x => negb (x =? h)%nat)) wd)).
  { unfold exec, sound_cleanup. rewrite Hs.
    destruct Hidle as (-> & _). reflexivity. }
  rewrite Hw'. unfold emit, with_live. cbn [log app live].
  assert (Htail' : forallb (fun e => negb (session_event e)) (tail ++ [EvUnload h]) = true).
  { rewrite forallb_app, Htail. reflexivity. }
  split; [reflexivity|].
  split; [rewrite Hlog, <- !app_assoc; reflexivity|].
  split; [rewrite Happ, !replay_app; reflexivity|].
  split; [repeat split|].
  split; [apply replay_keeps_catalog; reflexivity|].
  split; [exact Htail'|].
  split; [|split; [exact Hidle | rewrite Hnil; reflexivity]].
  intros pre post Heq Hseen.
  apply (resets_first h (tail ++ [EvUnload h]) (app w) Htail' pre post Heq Hseen).
Qed.

Lemma playSong_step_spec (w : World) (song : Song) :
  session_ok w ->
  create_fails env (song_uri song) = false ->
  let w' := step env w (OpPlaySong song) in
  sound (app w') = Some (next_handle w) /\
  currentSong (app w') = Some song /\
  isPlaying (app w') = true /\
  live w' = [next_handle w] /\
  next_handle w' = S (next_handle w).
Proof.
  intros [Hcur Hlive] Hc. unfold_async. rewrite Hc.
  destruct (sound (app w)) as [h0|] eqn:Hs; simpl; rewrite ?Hs; simpl.
  all: try (destruct (h0 =? next_handle w)%nat eqn:Hfresh; simpl;
            rewrite ?(Nat.eqb_sym (next_handle w) h0), ?Hfresh; simpl).
  all: use_session_ok Hlive.
  all: repeat split.
Qed.

Lemma playSong_step_log (w : World) (song : Song) (h0 : Handle) :
  sound (app w) = Some h0 ->
  h0 <> next_handle w ->
  create_fails env (song_uri song) = false ->
  log (step env w (OpPlaySong song)) =
    (log w ++ [EvUnload h0; EvCreate (song_uri song) (next_handle w);
               EvSetSound (Some (next_handle w)); EvSetCurrentSong (Some song);
               EvSetIsPlaying true; EvUnload h0])%list.
Proof.
  intros Hs Hfresh Hc. apply Nat.eqb_neq in Hfresh.
  unfold_async. rewrite Hc, Hs. simpl. rewrite Hfresh. simpl.
  rewrite <- !app_assoc. reflexivity.
Qed.

(** C5: from every reachable world, when both engine creations succeed,
    [play(A)] then [play(B)] unloads A's handle before it creates B's, and
    ends with exactly one live handle, B's, held by [sound], with
    [currentSong] B; and after any sequence of operations at most one handle
    is live (I5). *)
Theorem play_then_play
    (s : Store) (fs : list string) (t : N) (ops : list Op) (A B : Song) :
  create_fails env (song_uri A) = false ->
  create_fails env (song_uri B) = false ->
  let w := run env ops (mount env s fs t) in
  let wA := step env w (OpPlaySong A) in
  let wB := step env wA (OpPlaySong B) in
  exists hA hB,
    hA <> hB /\
    sound (app wA) = Some hA /\ currentSong (app wA) = Some A /\ live wA = [hA] /\
    log wB =
      (log wA ++ [EvUnload hA; EvCreate (song_uri B) hB; EvSetSound (Some hB);
                  EvSetCurrentSong (Some B); EvSetIsPlaying true; EvUnload hA])%list /\
    sound (app wB) = Some hB /\ currentSong (app wB) = Some B /\ live wB = [hB] /\
    (forall more, I5 (run env more wB)) /\
    (forall any, I5 (run env any (mount env s fs t))).
Proof.
  cbv zeta. intros HA HB.
  pose proof (reachable_session_ok s fs t ops) as Hok.
  set (w := run env ops (mount env s fs t)) in *.
  pose proof (step_session_ok w (OpPlaySong A) Hok) as HokA.
  destruct (playSong_step_spec w A Hok HA) as (HsA & HcA & _ & HlA & HnA).
  set (wA := step env w (OpPlaySong A)) in *.
  pose proof (step_session_ok wA (OpPlaySong B) HokA) as HokB.
  destruct (playSong_step_spec wA B HokA HB) as (HsB & HcB & _ & HlB & _).
  exists (next_handle w), (next_handle wA).
  assert (Hne : next_handle w <> next_handle wA) by (rewrite HnA; lia).
  repeat (split; [assumption|]).
  split; [apply (playSong_step_log wA B _ HsA Hne HB)|].
  repeat (split; [assumption|]).
  split.
  - intros more. apply session_ok_I5, run_session_ok, HokB.
  - intros any. apply session_ok_I5, reachable_session_ok.
Qed.

(** C6, as the code has it: when the engine creation fails, [play(song)]
    shows the error alert, creates no handle and leaves none live (I5), and
    leaves every hook as it was: an Idle session stays Idle, a loaded song
    stays current with its (now unloaded) sound object. *)
Theorem failed_play_keeps_session
    (s : Store) (fs : list string) (t : N) (ops : list Op) (song : Song) :
  create_fails env (song_uri song) = true ->
  let w := run env ops (mount env s fs t) in
  let w' := step env w (OpPlaySong song) in
  app w' = app w /\
  live w' = [] /\
  next_handle w' = next_handle w /\
  I5 w' /\
  reported "Error" "Failed to play song" w w' /\
  (Idle (app w) -> Idle (app w')).
Proof.
  cbv zeta. intros Hc.
  pose proof (reachable_session_ok s fs t ops) as [Hcur Hlive].
  set (w := run env ops (mount env s fs t)) in *.
  assert (E : let w' := step env w (OpPlaySong song) in
              app w' = app w /\ live w' = [] /\ next_handle w' = next_handle w /\
              reported "Error" "Failed to play song" w w').
  { unfold_async. rewrite Hc.
    destruct (sound (app w)) as [h0|] eqn:Hs; simpl; rewrite ?Hs; simpl;
      rewrite ?Nat.eqb_refl; simpl.
    all: use_session_ok Hlive.
    all: repeat split.
    all: eexists; split; [simpl; rewrite <- ?app_assoc; simpl; reflexivity | simpl; tauto]. }
  cbv zeta in E. destruct E as (Ea & El & En & Er).
  repeat (split; [assumption|]).
  split; [unfold I5; rewrite El; simpl; lia|].
  split; [exact Er|]. now rewrite Ea.
Qed.

End Session.

(** Song 2 is playing and is deleted. *)
Lemma current_song_deleted_witness :
  let w := run Scenario.env [OpPlaySong Scenario.songB]
               (mount Scenario.env Scenario.saved Scenario.disk Scenario.t0) in
  let w' := step Scenario.env w (OpDeleteSong "2") in
  currentSong (app w) = Some Scenario.songB /\
  live w = [0] /\
  songs (app w') = [Scenario.songA] /\
  Idle (app w') /\
  live w' = [].
Proof.
  destruct (deleteSong_current_resets_first Scenario.env Scenario.saved Scenario.disk
              Scenario.t0 [OpPlaySong Scenario.songB] "2" Scenario.songB
              eq_refl eq_refl)
    as (h & tail & _ & _ & _ & _ & _ & _ & _ & Hidle & Hlive).
  cbv zeta. split; [reflexivity|]. split; [reflexivity|]. split; [reflexivity|].
  split; [exact Hidle | exact Hlive].
Defined.

(** Song 1 then song 2, right after mount. *)
Lemma play_then_play_witness :
  let w := mount Scenario.env Scenario.saved Scenario.disk Scenario.t0 in
  let wA := step Scenario.env w (OpPlaySong Scenario.songA) in
  let wB := step Scenario.env wA (OpPlaySong Scenario.songB) in
  exists hB, live wB = [hB] /\ sound (app wB) = Some hB /\
             currentSong (app wB) = Some Scenario.songB.
Proof.
  destruct (play_then_play Scenario.env Scenario.saved Scenario.disk Scenario.t0 []
              Scenario.songA Scenario.songB eq_refl eq_refl)
    as (hA & hB & _ & _ & _ & _ & _ & Hs & Hc & Hl & _).
  exists hB. repeat split; assumption.
Defined.

(** C6 fails as stated: song 1 is playing, song 2 cannot be decoded, and
    after [play(song 2)] song 1 is still the current song. *)
Lemma failed_play_not_idle :
  ~ idle_after_failed_play Scenario.env_unplayable
      (step Scenario.env_unplayable
         (mount Scenario.env_unplayable Scenario.saved Scenario.disk Scenario.t0)
         (OpPlaySong Scenario.songA))
      Scenario.songB.
Proof.
  intros H. destruct (H eq_refl) as (_ & Hc & _).
  vm_compute in Hc. discriminate Hc.
Qed.

(** The same device: the hooks still show song 1, no handle is live. *)
Lemma failed_play_witness :
  let w := run Scenario.env_unplayable [OpPlaySong Scenario.songA]
               (mount Scenario.env_unplayable Scenario.saved Scenario.disk Scenario.t0) in
  let w' := step Scenario.env_unplayable w (OpPlaySong Scenario.songB) in
  currentSong (app w') = Some Scenario.songA /\
  sound (app w') = Some 0 /\
  live w' = [] /\
  reported "Error" "Failed to play song" w w'.
Proof.
  destruct (failed_play_keeps_session Scenario.env_unplayable Scenario.saved
              Scenario.disk Scenario.t0 [OpPlaySong Scenario.songA] Scenario.songB
              eq_refl)
    as (Ha & Hl & _ & _ & Hr & _).
  cbv zeta. rewrite Ha. split; [reflexivity|]. split; [reflexivity|].
  split; [exact Hl | exact Hr].
Defined.

(** ** Library manager: playlists *)

Section Playlists.

Variable env : Env.

Lemma add_to_other (playlistId songId : string) (q : Playlist) :
  pl_id q <> playlistId -> add_to playlistId songId q = q.
Proof.
  intros H. unfold add_to. apply String.eqb_neq in H. now rewrite H.
Qed.

Lemma add_to_shape (playlistId songId : string) (q : Playlist) :
  pl_id (add_to playlistId songId q) = pl_id q /\
  pl_name (add_to playlistId songId q) = pl_name q /\
  (pl_songs (add_to playlistId songId q) = pl_songs q \/
   ~ In songId (pl_songs q) /\
   pl_songs (add_to playlistId songId q) = (pl_songs q ++ [songId])%list).
Proof.
  unfold add_to. destruct (pl_id q =? playlistId); [|repeat split; now left].
  destruct (includes songId (pl_songs q)) eqn:Hin; simpl; [repeat split; now left|].
  split; [reflexivity|]. split; [reflexivity|]. right. split; [|reflexivity].
  intros H. apply includes_In in H. congruence.
Qed.

Lemma add_to_includes (playlistId songId : string) (q : Playlist) :
  pl_id q = playlistId ->
  includes songId (pl_songs (add_to playlistId songId q)) = true.
Proof.
  intros H. unfold add_to. apply String.eqb_eq in H. rewrite H.
  destruct (includes songId (pl_songs q)) eqn:Hin; simpl; [exact Hin|].
  apply includes_In, in_or_app. right. now left.
Qed.

Lemma add_to_idempotent (playlistId songId : string) (q : Playlist) :
  add_to playlistId songId (add_to playlistId songId q) = add_to playlistId songId q.
Proof.
  destruct (String.eqb_spec (pl_id q) playlistId) as [Heq|Hne].
  - pose proof (add_to_includes playlistId songId q Heq) as Hin.
    destruct (add_to_shape playlistId songId q) as (Hid & _).
    unfold add_to at 1. rewrite Hid. apply String.eqb_eq in Heq. rewrite Heq, Hin.
    reflexivity.
  - rewrite (add_to_other _ _ q Hne). apply add_to_other, Hne.
Qed.

Lemma add_to_NoDup (playlistId songId : string) (q : Playlist) :
  NoDup (pl_songs q) -> NoDup (pl_songs (add_to playlistId songId q)).
Proof.
  intros H. destruct (add_to_shape playlistId songId q) as (_ & _ & [->|[Hn ->]]);
    [exact H|].
  apply NoDup_app; [exact H | constructor; [now intros [] | constructor] | ].
  intros a Ha [<-|[]]. contradiction.
Qed.

Lemma add_to_once (playlistId songId : string) (q : Playlist) :
  NoDup (pl_songs q) ->
  pl_id q = playlistId ->
  count_occ string_dec (pl_songs (add_to playlistId songId q)) songId = 1.
Proof.
  intros Hnd Hid.
  apply NoDup_count_occ'.
  - now apply add_to_NoDup.
  - apply includes_In. now apply add_to_includes.
Qed.

(** What the two taps leave of the playlists, in memory and in the store. *)
Lemma addSongToPlaylist_spec (w : World) (playlistId : string) (item : Song) :
  let w' := addSongToPlaylist env w playlistId item in
  let updated := map (add_to playlistId (song_id item)) (playlists (app w)) in
  playlists (app w') =
    (if store_fails env PLAYLISTS_KEY then playlists (app w) else updated) /\
  saved_playlists (store w') =
    (if store_fails env PLAYLISTS_KEY then saved_playlists (store w) else Json updated).
Proof.
  unfold_async.
  destruct (sound (app w)) as [h|] eqn:Hs; simpl; rewrite ?Hs, ?Nat.eqb_refl; simpl.
  all: destruct (store_fails env PLAYLISTS_KEY); simpl;
       rewrite ?Hs, ?Nat.eqb_refl; simpl; split; reflexivity.
Qed.

(** C7: on a catalog that satisfies I3, adding song [songId] to playlist
    [playlistId] twice leaves the same playlists, in memory and in the
    store, as adding it once; I3 still holds; when the playlists key can be
    written, every playlist of that id then holds [songId] exactly once.
    The addition maps every playlist in place: other playlists are returned
    as they are, and the target keeps its id, name and entries in order,
    with [songId] appended at the end when it was absent. *)
Theorem addSongToPlaylist_idempotent (w : World) (playlistId : string) (item : Song) :
  let songId := song_id item in
  let once := addSongToPlaylist env w playlistId item in
  let twice := addSongToPlaylist env once playlistId item in
  playlists (app twice) = playlists (app once) /\
  saved_playlists (store twice) = saved_playlists (store once) /\
  (store_fails env PLAYLISTS_KEY = false ->
   playlists (app once) = map (add_to playlistId songId) (playlists (app w)) /\
   saved_playlists (store once) = Json (playlists (app once))) /\
  (I3 (app w) ->
   I3 (app once) /\
   (store_fails env PLAYLISTS_KEY = false ->
    forall q, In q (playlists (app once)) -> pl_id q = playlistId ->
              count_occ string_dec (pl_songs q) songId = 1)) /\
  (forall q, pl_id q <> playlistId -> add_to playlistId songId q = q) /\
  (forall q, pl_id (add_to playlistId songId q) = pl_id q /\
             pl_name (add_to playlistId songId q) = pl_name q /\
             (pl_songs (add_to playlistId songId q) = pl_songs q \/
              ~ In songId (pl_songs q) /\
              pl_songs (add_to playlistId songId q) = (pl_songs q ++ [songId])%list)).
Proof.
  cbv zeta.
  destruct (addSongToPlaylist_spec w playlistId item) as [Hp Hs].
  destruct (addSongToPlaylist_spec (addSongToPlaylist env w playlistId item)
              playlistId item) as [Hp2 Hs2].
  cbv zeta in *.
  set (once := addSongToPlaylist env w playlistId item) in *.
  split; [|split; [|split; [|split; [|split]]]].
  - rewrite Hp2, Hp. destruct (store_fails env PLAYLISTS_KEY); [reflexivity|].
    rewrite map_map. apply map_ext. intros q. apply add_to_idempotent.
  - rewrite Hs2, Hs, Hp. destruct (store_fails env PLAYLISTS_KEY); [reflexivity|].
    rewrite map_map. f_equal. apply map_ext. intros q. apply add_to_idempotent.
  - intros Hok. rewrite Hs, Hp, Hok. split; reflexivity.
  - intros H3. split.
    + unfold I3. rewrite Hp. destruct (store_fails env PLAYLISTS_KEY); [exact H3|].
      intros q Hq. apply in_map_iff in Hq. destruct Hq as (q0 & <- & Hq0).
      apply add_to_NoDup, H3, Hq0.
    + intros Hok q Hq Hid. rewrite Hp, Hok in Hq.
      apply in_map_iff in Hq. destruct Hq as (q0 & <- & Hq0).
      apply add_to_once; [apply H3, Hq0|].
      destruct (add_to_shape playlistId (song_id item) q0) as (<- & _). exact Hid.
  - intros q. apply add_to_other.
  - intros q. apply add_to_shape.
Qed.

(** C8: when the typed name trimmed of white space is empty,
    [createPlaylist] shows the error alert and changes neither the hooks
    nor the store; otherwise, when the playlists key can be written, it
    appends the playlist [{ id, name: trimmed, songs: [] }] after the
    existing playlists, which stay as they are, and persists the result. *)
Theorem createPlaylist_validates (w : World) :
  let w' := step env w OpCreatePlaylist in
  let name := trim (newPlaylistName (app w)) in
  if name =? "" then
    app w' = app w /\ store w' = store w /\
    log w' = (log w ++ [EvAlert "Error" "Please enter a playlist name"])%list
  else
    store_fails env PLAYLISTS_KEY = false ->
    playlists (app w') = (playlists (app w) ++ [mkPlaylist (toString (now w)) name []])%list /\
    saved_playlists (store w') = Json (playlists (app w')) /\
    silent w w'.
Proof.
  cbv zeta. unfold_async. unfold truthy.
  destruct (trim (newPlaylistName (app w)) =? "") eqn:Hname; simpl.
  - destruct (sound (app w)) as [h|] eqn:Hs; simpl; rewrite ?Hs, ?Nat.eqb_refl; simpl;
      repeat split.
  - intros Hok. rewrite Hok. simpl.
    destruct (sound (app w)) as [h|] eqn:Hs; simpl; rewrite ?Hs, ?Nat.eqb_refl; simpl.
    all: repeat split.
    all: eexists; split; [simpl; rewrite <- ?app_assoc; simpl; reflexivity | reflexivity].
Qed.

End Playlists.

(** Song 2 is added to Mix, twice. *)
Lemma addSongToPlaylist_witness :
  let w := mount Scenario.env Scenario.saved_solo Scenario.disk Scenario.t0 in
  let once := addSongToPlaylist Scenario.env w "p1" Scenario.songB in
  let twice := addSongToPlaylist Scenario.env once "p1" Scenario.songB in
  playlists (app w) = [Scenario.solo] /\
  playlists (app once) = [Scenario.mix] /\
  playlists (app twice) = [Scenario.mix] /\
  count_occ string_dec (pl_songs Scenario.mix) "2" = 1.
Proof.
  destruct (addSongToPlaylist_idempotent Scenario.env
              (mount Scenario.env Scenario.saved_solo Scenario.disk Scenario.t0)
              "p1" Scenario.songB)
    as (Htwice & _ & Honce & Hexact & _).
  destruct (Honce eq_refl) as (Hp & _).
  destruct Hexact as (_ & Hcount).
  - intros p [<-|[]]. repeat constructor; simpl; intuition discriminate.
  - cbv zeta. rewrite Htwice, Hp.
    split; [reflexivity|]. split; [reflexivity|]. split; [reflexivity|].
    apply (Hcount eq_refl).
    + rewrite Hp. left. reflexivity.
    + reflexivity.
Defined.

(** A blank name is refused; a name with spaces around it is trimmed. *)
Lemma createPlaylist_witness :
  let w0 := mount Scenario.env Scenario.saved Scenario.disk Scenario.t0 in
  let blank := step Scenario.env w0 (OpTypePlaylistName "  ") in
  let named := step Scenario.env w0 (OpTypePlaylistName " Road trip ") in
  (playlists (app (step Scenario.env blank OpCreatePlaylist)) = [Scenario.mix] /\
   store (step Scenario.env blank OpCreatePlaylist) = store blank /\
   log (step Scenario.env blank OpCreatePlaylist) =
     (log blank ++ [EvAlert "Error" "Please enter a playlist name"])%list) /\
  playlists (app (step Scenario.env named OpCreatePlaylist)) =
    [Scenario.mix; mkPlaylist "1700000000000" "Road trip" []].
Proof.
  cbv zeta. split.
  - pose proof (createPlaylist_validates Scenario.env
                  (step Scenario.env
                     (mount Scenario.env Scenario.saved Scenario.disk Scenario.t0)
                     (OpTypePlaylistName "  "))) as H.
    cbv zeta in H.
    change (trim _ =? "") with true in H. cbv iota in H.
    destruct H as (Ha & Hs & Hl).
    split; [rewrite Ha; vm_compute; reflexivity | split; [exact Hs | exact Hl]].
  - pose proof (createPlaylist_validates Scenario.env
                  (step Scenario.env
                     (mount Scenario.env Scenario.saved Scenario.disk Scenario.t0)
                     (OpTypePlaylistName " Road trip "))) as H.
    cbv zeta in H.
    change (trim _ =? "") with false in H. cbv iota in H.
    destruct (H eq_refl) as (Hp & _). rewrite Hp. vm_compute. reflexivity.
Defined.

(** * More of the component *)

Section Frames.

Variable env : Env.

(** The effect cleanup only unloads: hooks, store, files and clock stay. *)
Lemma sound_cleanup_frame (r : AppState) (w : World) :
  let w' := exec (sound_cleanup r) w in
  app w' = app w /\ store w' = store w /\ files w' = files w /\ now w' = now w.
Proof.
  unfold exec, sound_cleanup, unloadAsync, effect.
  destruct (sound r) as [old|]; [destruct (sound (app w)) as [new|]|];
    [destruct (old =? new)%nat| |]; repeat split.
Qed.

Lemma step_app (w : World) (op : Op) :
  app (step env w op) = app (exec (handle env (app w) op) w).
Proof. unfold step. apply sound_cleanup_frame. Qed.

Lemma step_store (w : World) (op : Op) :
  store (step env w op) = store (exec (handle env (app w) op) w).
Proof. unfold step. apply sound_cleanup_frame. Qed.

Lemma step_files (w : World) (op : Op) :
  files (step env w op) = files (exec (handle env (app w) op) w).
Proof. unfold step. apply sound_cleanup_frame. Qed.

End Frames.

Section Catalog.

Variable env : Env.

(** What [deleteSong] leaves of the catalog and of the store: nothing
    changed when the file deletion raised; otherwise the songs are filtered,
    and favorites and playlists are filtered where their key could be
    written. *)
Lemma deleteSong_outcome (w : World) (songId : string) :
  let w' := exec (deleteSong env (app w) songId) w in
  let favs := without songId (favorites (app w)) in
  let pls := map (fun p => with_songs (without songId (pl_songs p)) p)
                 (playlists (app w)) in
  (catalog (app w') = catalog (app w) /\ store w' = store w) \/
  (songs (app w') =
     filter (fun song => negb (song_id song =? songId)) (songs (app w)) /\
   saved_songs (store w') =
     (if store_fails env SONGS_KEY then saved_songs (store w)
      else Json (songs (app w'))) /\
   favorites (app w') =
     (if store_fails env FAVORITES_KEY then favorites (app w) else favs) /\
   saved_favorites (store w') =
     (if negb (List.length favs =? List.length (favorites (app w)))%nat
         && negb (store_fails env FAVORITES_KEY)
      then Json favs else saved_favorites (store w)) /\
   playlists (app w') =
     (if store_fails env PLAYLISTS_KEY then playlists (app w) else pls) /\
   saved_playlists (store w') =
     (if store_fails env PLAYLISTS_KEY then saved_playlists (store w) else Json pls)).
Proof.
  cbv zeta. unfold catalog, without. unfold_async.
  destruct (store_fails env SONGS_KEY) eqn:E1,
           (store_fails env FAVORITES_KEY) eqn:E2,
           (store_fails env PLAYLISTS_KEY) eqn:E3.
  all: destruct (Nat.eqb
                   (List.length
                      (filter (fun id => negb (String.eqb id songId))
                              (favorites (app w))))
                   (List.length (favorites (app w)))) eqn:E4.
  all: destruct (has_id (currentSong (app w)) songId) eqn:E5;
       [destruct (sound (app w)) as [h|] eqn:E6 | ].
  all: destruct (find (fun s => song_id s =? songId) (songs (app w))) as [s0|] eqn:E7;
       [ destruct (truthy (song_uri s0)) eqn:E8;
         [ destruct (existsb (String.eqb (song_uri s0)) (files w)) eqn:E9;
           [ destruct (delete_fails env (song_uri s0)) eqn:E10 | ] | ] | ].
  all: simpl; rewrite ?E9; simpl.
  all: first [ left; split; reflexivity
             | right; repeat split; try reflexivity ].
  all: apply Nat.eqb_eq in E4; symmetry; apply filter_same_length; exact E4.
Qed.

End Catalog.

Section Mount.

Variable env : Env.

(** The whole world the mount effect leaves. *)
Lemma mount_world (s : Store) (fs : list string) (t : N) :
  let w := mount env s fs t in
  let fs' := mounted_files env fs in
  files w = fs' /\
  app w =
    loadedApp (existing fs' (slot_value (saved_songs s)))
      (if songs_step_throws env s fs' then [] else slot_value (saved_favorites s))
      (if songs_step_throws env s fs' || corrupt (saved_favorites s) then []
       else slot_value (saved_playlists s)) /\
  store w =
    put_saved_songs
      (match saved_songs s with
       | Json l =>
           if negb (List.length (existing fs' l) =? List.length l)%nat
              && negb (store_fails env SONGS_KEY)
           then Json (existing fs' l) else Json l
       | other => other
       end) s /\
  live w = [] /\ now w = t.
Proof.
  destruct s as [ss sf sp].
  unfold mount, boot, loadSavedData, songs_step_throws, mounted_files, loadedApp,
    initialApp, put_saved_songs.
  unfold_async. simpl.
  destruct (existsb (String.eqb (MUSIC_DIRECTORY env)) fs) eqn:Hdir; simpl.
  all: destruct ss as [| | |ls]; simpl;
    [ | |
      | rewrite keep_existing_spec; simpl;
        match goal with
        | |- context [(?a =? ?b)%nat] => destruct (a =? b)%nat eqn:Hlen
        end; simpl; [ | destruct (store_fails env SONGS_KEY) eqn:Hst ] ]; simpl.
  all: destruct sf as [| | |lf]; simpl.
  all: destruct sp as [| | |lp]; simpl.
  all: repeat split; simpl; try rewrite Hlen; try rewrite Hst; simpl;
       try reflexivity; try congruence.
Qed.

End Mount.

Section Remount.

Variable env : Env.

Lemma mounted_files_again (fs : list string) :
  mounted_files env (mounted_files env fs) = mounted_files env fs.
Proof.
  unfold mounted_files.
  destruct (existsb (String.eqb (MUSIC_DIRECTORY env)) fs) eqn:H; [now rewrite H|].
  simpl. now rewrite String.eqb_refl.
Qed.

Lemma filter_again {A} (f : A -> bool) (l : list A) :
  filter f (filter f l) = filter f l.
Proof.
  induction l as [|x l IH]; simpl; [reflexivity|].
  destruct (f x) eqn:E; simpl; [rewrite E; f_equal|]; exact IH.
Qed.

Lemma existing_again (fs : list string) (l : list Song) :
  existing fs (existing fs l) = existing fs l.
Proof. apply filter_again. Qed.

(** X1: a restart right after a load changes nothing: the second load
    finds the store and the files as the first one left them, loads the
    same songs, favorites and playlists, and writes nothing new. *)
Theorem mount_idempotent (s : Store) (fs : list string) (t t' : N) :
  let w := mount env s fs t in
  let w2 := mount env (store w) (files w) t' in
  app w2 = app w /\ store w2 = store w /\ files w2 = files w.
Proof.
  cbv zeta.
  destruct (mount_world env s fs t) as (Hf & Ha & Hs & _).
  destruct (mount_world env (store (mount env s fs t)) (files (mount env s fs t)) t')
    as (Hf2 & Ha2 & Hs2 & _).
  cbv zeta in *. rewrite Hf2, Ha2, Hs2, Ha. clear Hf2 Ha2 Hs2 Ha.
  rewrite Hs, Hf. clear Hs Hf. rewrite mounted_files_again.
  set (fs' := mounted_files env fs).
  destruct s as [ss sf sp]. unfold songs_step_throws, put_saved_songs. simpl.
  destruct ss as [| | |ls]; simpl; [repeat split | repeat split | repeat split | ].
  destruct (List.length (existing fs' ls) =? List.length ls)%nat eqn:Hlen; simpl.
  - rewrite Hlen. simpl. repeat split.
  - destruct (store_fails env SONGS_KEY) eqn:Hst; simpl.
    + rewrite ?Hlen, ?Hst. simpl. repeat split.
    + rewrite ?existing_again, ?Nat.eqb_refl. simpl. rewrite ?existing_again. repeat split.
Qed.

End Remount.

Section Outcomes.

Variable env : Env.

Ltac run_op := unfold_async; split_branches.

Lemma handle_keeps_songs (w : World) (op : Op) :
  changes_songs op = false ->
  let w' := exec (handle env (app w) op) w in
  songs (app w') = songs (app w) /\ saved_songs (store w') = saved_songs (store w).
Proof.
  intros H. destruct op; try discriminate H; clear H; run_op; split; reflexivity.
Qed.

Lemma handle_keeps_favorites (w : World) (op : Op) :
  changes_favorites op = false ->
  let w' := exec (handle env (app w) op) w in
  favorites (app w') = favorites (app w) /\
  saved_favorites (store w') = saved_favorites (store w).
Proof.
  intros H. destruct op; try discriminate H; clear H; run_op; split; reflexivity.
Qed.

Lemma handle_keeps_playlists (w : World) (op : Op) :
  changes_playlists op = false ->
  let w' := exec (handle env (app w) op) w in
  playlists (app w') = playlists (app w) /\
  saved_playlists (store w') = saved_playlists (store w).
Proof.
  intros H. destruct op; try discriminate H; clear H; run_op; split; reflexivity.
Qed.

(** The array [toggleFavorite] computes. *)
Lemma toggleFavorite_outcome (w : World) (songId : string) :
  let w' := exec (toggleFavorite env (app w) songId) w in
  let updated :=
    if includes songId (favorites (app w)) then without songId (favorites (app w))
    else (favorites (app w) ++ [songId])%list in
  favorites (app w') =
    (if store_fails env FAVORITES_KEY then favorites (app w) else updated) /\
  saved_favorites (store w') =
    (if store_fails env FAVORITES_KEY then saved_favorites (store w) else Json updated).
Proof.
  cbv zeta. unfold without. unfold_async.
  destruct (store_fails env FAVORITES_KEY); simpl; split; reflexivity.
Qed.

Lemma pickSong_outcome (w : World) (result : option Asset) :
  let w' := exec (pickSong env (app w) result) w in
  (songs (app w') = songs (app w) /\ store w' = store w /\ files w' = files w) \/
  (exists file,
     result = Some file /\
     copy_fails env (asset_uri file) = false /\
     let fileName := if truthy (asset_name file) then asset_name file
                     else "song_" ++ toString (now w) ++ ".mp3" in
     let newSong :=
       mkSong (toString (copied_at env file w)) fileName
              (MUSIC_DIRECTORY env ++ fileName) in
     songs (app w') = (songs (app w) ++ [newSong])%list /\
     saved_songs (store w') =
       (if store_fails env SONGS_KEY then saved_songs (store w)
        else Json (songs (app w'))) /\
     files w' = song_uri newSong :: files w).
Proof.
  cbv zeta. unfold copied_at. unfold_async.
  destruct result as [file|]; [|left; repeat split].
  simpl. destruct (copy_fails env (asset_uri file)) eqn:Hc; simpl;
    [left; repeat split|].
  right. exists file. split; [reflexivity|]. split; [exact Hc|].
  destruct (store_fails env SONGS_KEY); simpl; repeat split.
Qed.

Lemma createPlaylist_outcome (w : World) :
  let w' := exec (createPlaylist env (app w)) w in
  let created :=
    (playlists (app w) ++
     [mkPlaylist (toString (now w)) (trim (newPlaylistName (app w))) []])%list in
  (playlists (app w') = playlists (app w) /\
   saved_playlists (store w') = saved_playlists (store w)) \/
  (playlists (app w') = created /\ saved_playlists (store w') = Json created).
Proof.
  cbv zeta. run_op; first [left; split; reflexivity | right; split; reflexivity].
Qed.

Lemma deletePlaylist_outcome (w : World) (playlistId : string) (pressDelete : bool) :
  let w' := exec (deletePlaylist env (app w) playlistId pressDelete) w in
  let kept := filter (fun p => negb (pl_id p =? playlistId)) (playlists (app w)) in
  (playlists (app w') = playlists (app w) /\
   saved_playlists (store w') = saved_playlists (store w)) \/
  (playlists (app w') = kept /\ saved_playlists (store w') = Json kept).
Proof.
  cbv zeta. run_op; first [left; split; reflexivity | right; split; reflexivity].
Qed.

Lemma addToPlaylist_outcome (w : World) (playlistId : string) :
  let w' := exec (addToPlaylist env (app w) playlistId) w in
  (playlists (app w') = playlists (app w) /\
   saved_playlists (store w') = saved_playlists (store w)) \/
  (exists item,
     songToAdd (app w) = Some item /\
     let updated := map (add_to playlistId (song_id item)) (playlists (app w)) in
     playlists (app w') = updated /\ saved_playlists (store w') = Json updated).
Proof.
  cbv zeta. unfold_async. destruct (songToAdd (app w)) as [item|]; [|left; split; reflexivity].
  destruct (store_fails env PLAYLISTS_KEY); simpl; [left; split; reflexivity|].
  right. exists item. repeat split.
Qed.

End Outcomes.

Section Invariants.

Variable env : Env.

Lemma run_invariant (P : World -> Prop) :
  (forall w op, P w -> P (step env w op)) ->
  forall ops w, P w -> P (run env ops w).
Proof.
  intros Hstep ops. induction ops as [|op ops IH]; intros w Hw; [exact Hw|].
  simpl. apply IH, Hstep, Hw.
Qed.

Lemma step_favorites_persisted (w : World) (op : Op) :
  favorites_persisted w -> favorites_persisted (step env w op).
Proof.
  unfold favorites_persisted. rewrite step_app, step_store. intros [Hc Hv].
  destruct (changes_favorites op) eqn:Hop.
  - destruct op; try discriminate Hop; cbn [handle].
    + destruct (deleteSong_outcome env w songId)
        as [[Hcat Hs]|(_ & _ & Hf & Hs & _)].
      * unfold catalog in Hcat. injection Hcat as _ Hf _. now rewrite Hs, Hf.
      * rewrite Hf, Hs.
        destruct (List.length _ =? List.length _)%nat eqn:Hlen;
          destruct (store_fails env FAVORITES_KEY); simpl; try (split; [exact Hc|]);
          try exact Hv; try (split; reflexivity).
        rewrite Hv. symmetry. apply filter_same_length, Nat.eqb_eq, Hlen.
    + destruct (toggleFavorite_outcome env w songId) as [Hf Hs].
      rewrite Hf, Hs. destruct (store_fails env FAVORITES_KEY); [now split|].
      split; reflexivity.
  - destruct (handle_keeps_favorites env w op Hop) as [Hf Hs]. now rewrite Hf, Hs.
Qed.

Lemma step_playlists_persisted (w : World) (op : Op) :
  playlists_persisted w -> playlists_persisted (step env w op).
Proof.
  unfold playlists_persisted. rewrite step_app, step_store. intros [Hc Hv].
  destruct (changes_playlists op) eqn:Hop.
  - destruct op; try discriminate Hop; cbn [handle].
    + destruct (deleteSong_outcome env w songId)
        as [[Hcat Hs]|(_ & _ & _ & _ & Hp & Hs)].
      * unfold catalog in Hcat. injection Hcat as _ _ Hp. now rewrite Hs, Hp.
      * rewrite Hp, Hs. destruct (store_fails env PLAYLISTS_KEY); now split.
    + destruct (createPlaylist_outcome env w) as [[Hp Hs]|[Hp Hs]];
        rewrite Hp, Hs; now split.
    + destruct (deletePlaylist_outcome env w playlistId pressDelete)
        as [[Hp Hs]|[Hp Hs]]; rewrite Hp, Hs; now split.
    + destruct (addToPlaylist_outcome env w playlistId)
        as [[Hp Hs]|(item & _ & Hp & Hs)]; rewrite Hp, Hs; now split.
  - destruct (handle_keeps_playlists env w op Hop) as [Hp Hs]. now rewrite Hp, Hs.
Qed.

Lemma step_songs_persisted (w : World) (op : Op) :
  store_fails env SONGS_KEY = false ->
  songs_persisted w -> songs_persisted (step env w op).
Proof.
  unfold songs_persisted. rewrite step_app, step_store. intros Hok [Hc Hv].
  destruct (changes_songs op) eqn:Hop.
  - destruct op; try discriminate Hop; cbn [handle].
    + destruct (pickSong_outcome env w result)
        as [(Hs & Hst & _)|(file & _ & _ & Hs & Hst & _)].
      * now rewrite Hs, Hst.
      * rewrite Hst, Hok. now split.
    + destruct (deleteSong_outcome env w songId)
        as [[Hcat Hs]|(_ & Hst & _)].
      * unfold catalog in Hcat. injection Hcat as Hs' _ _. now rewrite Hs, Hs'.
      * rewrite Hst, Hok. now split.
  - destruct (handle_keeps_songs env w op Hop) as [Hs Hst]. now rewrite Hs, Hst.
Qed.

Lemma step_favorites_unique (w : World) (op : Op) :
  favorites_unique (app w) -> favorites_unique (app (step env w op)).
Proof.
  unfold favorites_unique. rewrite step_app. intros Hnd.
  destruct (changes_favorites op) eqn:Hop.
  - destruct op; try discriminate Hop; cbn [handle].
    + destruct (deleteSong_outcome env w songId)
        as [[Hcat _]|(_ & _ & Hf & _)].
      * unfold catalog in Hcat. injection Hcat as _ Hf _. now rewrite Hf.
      * rewrite Hf. destruct (store_fails env FAVORITES_KEY); [exact Hnd|].
        now apply without_NoDup.
    + destruct (toggleFavorite_outcome env w songId) as [Hf _]. rewrite Hf.
      destruct (store_fails env FAVORITES_KEY); [exact Hnd|].
      destruct (includes songId (favorites (app w))) eqn:Hin.
      * now apply without_NoDup.
      * apply NoDup_app; [exact Hnd | constructor; [now intros [] | constructor] | ].
        intros a Ha [<-|[]]. apply includes_In in Ha. congruence.
  - destruct (handle_keeps_favorites env w op Hop) as [Hf _]. now rewrite Hf.
Qed.

Lemma step_I3 (w : World) (op : Op) :
  I3 (app w) -> I3 (app (step env w op)).
Proof.
  unfold I3. rewrite step_app. intros H3.
  destruct (changes_playlists op) eqn:Hop.
  - destruct op; try discriminate Hop; cbn [handle].
    + destruct (deleteSong_outcome env w songId)
        as [[Hcat _]|(_ & _ & _ & _ & Hp & _)].
      * unfold catalog in Hcat. injection Hcat as _ _ Hp. now rewrite Hp.
      * rewrite Hp. destruct (store_fails env PLAYLISTS_KEY); [exact H3|].
        intros p Hin. apply in_map_iff in Hin. destruct Hin as (q & <- & Hq).
        simpl. apply without_NoDup, H3, Hq.
    + destruct (createPlaylist_outcome env w) as [[Hp _]|[Hp _]]; rewrite Hp;
        [exact H3|].
      intros p Hin. apply in_app_or in Hin. destruct Hin as [Hin|[<-|[]]];
        [now apply H3 | constructor].
    + destruct (deletePlaylist_outcome env w playlistId pressDelete)
        as [[Hp _]|[Hp _]]; rewrite Hp; [exact H3|].
      intros p Hin. apply filter_In in Hin. now apply H3.
    + destruct (addToPlaylist_outcome env w playlistId)
        as [[Hp _]|(item & _ & Hp & _)]; rewrite Hp; [exact H3|].
      intros p Hin. apply in_map_iff in Hin. destruct Hin as (q & <- & Hq).
      apply add_to_NoDup, H3, Hq.
  - destruct (handle_keeps_playlists env w op Hop) as [Hp _]. now rewrite Hp.
Qed.

End Invariants.

Section Kept.

Variable env : Env.

Lemma no_corrupt_songs_no_throw (st : Store) (fs0 : list string) :
  store_fails env SONGS_KEY = false ->
  corrupt (saved_songs st) = false ->
  songs_step_throws env st fs0 = false.
Proof.
  intros Hok H. unfold songs_step_throws.
  destruct (saved_songs st); simpl in *; [reflexivity | reflexivity | exact H |].
  rewrite Hok. apply andb_false_r.
Qed.

Lemma mount_favorites_persisted (s : Store) (fs : list string) (t : N) :
  songs_step_throws env s (mounted_files env fs) = false ->
  corrupt (saved_favorites s) = false ->
  favorites_persisted (mount env s fs t).
Proof.
  intros Hsongs Hf. destruct (mount_world env s fs t) as (_ & Ha & Hs & _).
  unfold favorites_persisted. rewrite Ha, Hs, Hsongs. simpl. now split.
Qed.

Lemma mount_playlists_persisted (s : Store) (fs : list string) (t : N) :
  songs_step_throws env s (mounted_files env fs) = false ->
  corrupt (saved_favorites s) = false ->
  corrupt (saved_playlists s) = false ->
  playlists_persisted (mount env s fs t).
Proof.
  intros Hsongs Hf Hp. destruct (mount_world env s fs t) as (_ & Ha & Hs & _).
  unfold playlists_persisted. rewrite Ha, Hs, Hsongs, Hf. simpl. now split.
Qed.

Lemma mount_songs_persisted (s : Store) (fs : list string) (t : N) :
  store_fails env SONGS_KEY = false ->
  corrupt (saved_songs s) = false ->
  songs_persisted (mount env s fs t).
Proof.
  intros Hok Hc. destruct (mount_world env s fs t) as (_ & Ha & Hs & _).
  unfold songs_persisted. rewrite Ha, Hs, Hok. simpl.
  destruct (saved_songs s) as [| | |l]; simpl in *;
    [now split | now split | discriminate Hc |].
  destruct (List.length _ =? List.length _)%nat eqn:Hlen; simpl; split;
    try reflexivity.
  symmetry. apply filter_same_length, Nat.eqb_eq, Hlen.
Qed.

(** X2: the favorites never hold an id twice.  [toggleFavorite] appends an
    id only when [includes] says it is absent and [deleteSong] only filters,
    so if the stored favorites hold no id twice, neither do the favorites
    in memory after any sequence of operations. *)
Theorem favorites_stay_unique
    (s : Store) (fs : list string) (t : N) (ops : list Op) :
  NoDup (slot_value (saved_favorites s)) ->
  favorites_unique (app (run env ops (mount env s fs t))).
Proof.
  intros Hnd.
  apply (run_invariant env (fun w => favorites_unique (app w)));
    [apply step_favorites_unique|].
  destruct (mount_world env s fs t) as (_ & Ha & _). unfold favorites_unique.
  rewrite Ha. simpl. destruct (songs_step_throws _ _ _); [constructor | exact Hnd].
Qed.

(** X3: I3 is kept.  If no stored playlist holds an id twice, no playlist in
    memory does after any sequence of operations: created playlists are
    empty, [addToPlaylist] appends only an absent id, deletions filter. *)
Theorem playlists_stay_duplicate_free
    (s : Store) (fs : list string) (t : N) (ops : list Op) :
  (forall p, In p (slot_value (saved_playlists s)) -> NoDup (pl_songs p)) ->
  I3 (app (run env ops (mount env s fs t))).
Proof.
  intros Hnd.
  apply (run_invariant env (fun w => I3 (app w))); [apply step_I3|].
  destruct (mount_world env s fs t) as (_ & Ha & _). unfold I3.
  rewrite Ha. simpl. destruct (_ || _); [now intros p [] | exact Hnd].
Qed.

(** X4: favorites and playlists in memory are the persisted ones.  When the
    load went through (no text failed to parse, no write-back failed), then
    after any sequence of operations, and whichever store writes fail on
    the way, the store holds exactly the favorites and the playlists that
    are in memory: [saveFavorites] and [savePlaylists] call the setter only
    after the write. *)
Theorem favorites_and_playlists_persisted
    (s : Store) (fs : list string) (t : N) (ops : list Op) :
  songs_step_throws env s (mounted_files env fs) = false ->
  corrupt (saved_favorites s) = false ->
  corrupt (saved_playlists s) = false ->
  let w := run env ops (mount env s fs t) in
  favorites_persisted w /\ playlists_persisted w.
Proof.
  intros Hsongs Hf Hp. cbv zeta. split.
  - apply (run_invariant env favorites_persisted); [apply step_favorites_persisted|].
    now apply mount_favorites_persisted.
  - apply (run_invariant env playlists_persisted); [apply step_playlists_persisted|].
    now apply mount_playlists_persisted.
Qed.

(** X5: the song list in memory is the persisted one, as long as the songs
    key can be written and the stored songs text parses. *)
Theorem songs_persisted_always
    (s : Store) (fs : list string) (t : N) (ops : list Op) :
  store_fails env SONGS_KEY = false ->
  corrupt (saved_songs s) = false ->
  songs_persisted (run env ops (mount env s fs t)).
Proof.
  intros Hok Hc.
  apply (run_invariant env songs_persisted);
    [intros w op; now apply step_songs_persisted|].
  now apply mount_songs_persisted.
Qed.

(** X6: a restart restores the catalog.  Under the conditions of the two
    theorems above, mounting again on the store and the files that any
    sequence of operations left loads the same favorites and playlists, and
    the songs of the list whose file is still there. *)
Theorem restart_restores_catalog
    (s : Store) (fs : list string) (t t' : N) (ops : list Op) :
  store_fails env SONGS_KEY = false ->
  corrupt (saved_songs s) = false ->
  corrupt (saved_favorites s) = false ->
  corrupt (saved_playlists s) = false ->
  let w := run env ops (mount env s fs t) in
  let w2 := mount env (store w) (files w) t' in
  songs (app w2) = existing (files w2) (songs (app w)) /\
  favorites (app w2) = favorites (app w) /\
  playlists (app w2) = playlists (app w).
Proof.
  intros Hok Hcs Hcf Hcp. cbv zeta.
  pose proof (no_corrupt_songs_no_throw s (mounted_files env fs) Hok Hcs) as Hthrows.
  destruct (run_invariant env songs_persisted
              (fun w op => step_songs_persisted env w op Hok) ops _
              (mount_songs_persisted s fs t Hok Hcs)) as [Hc1 Hv1].
  destruct (run_invariant env favorites_persisted (step_favorites_persisted env) ops _
              (mount_favorites_persisted s fs t Hthrows Hcf)) as [Hc2 Hv2].
  destruct (run_invariant env playlists_persisted (step_playlists_persisted env) ops _
              (mount_playlists_persisted s fs t Hthrows Hcf Hcp)) as [Hc3 Hv3].
  set (w := run env ops (mount env s fs t)) in *.
  destruct (loadSavedData_spec env (store w) (files w) t')
    as (_ & _ & Hs & Hf & Hp & _).
  cbv zeta in *.
  rewrite Hs, Hf, Hp, (no_corrupt_songs_no_throw _ _ Hok Hc1), Hc2, Hv1, Hv2, Hv3.
  repeat split.
Qed.

End Kept.

Section Favorites.

Variable env : Env.

Lemma includes_false (x : string) (arr : list string) :
  includes x arr = false <-> ~ In x arr.
Proof.
  rewrite <- includes_In. destruct (includes x arr); split; congruence.
Qed.

(** X7: [toggleFavorite] flips the membership of its id and of no other.
    When the favorites key can be written, the id is a favorite afterwards
    exactly when it was none before, every other id keeps its membership,
    and songs and playlists stay as they are. *)
Theorem toggleFavorite_flips (w : World) (songId : string) :
  store_fails env FAVORITES_KEY = false ->
  let w' := step env w (OpToggleFavorite songId) in
  (In songId (favorites (app w')) <-> ~ In songId (favorites (app w))) /\
  (forall other, other <> songId ->
     (In other (favorites (app w')) <-> In other (favorites (app w)))) /\
  saved_favorites (store w') = Json (favorites (app w')) /\
  songs (app w') = songs (app w) /\
  playlists (app w') = playlists (app w).
Proof.
  intros Hok. cbv zeta. rewrite step_app, step_store. cbn [handle].
  destruct (toggleFavorite_outcome env w songId) as [Hf Hs].
  destruct (handle_keeps_songs env w (OpToggleFavorite songId) eq_refl) as [Hsongs _].
  destruct (handle_keeps_playlists env w (OpToggleFavorite songId) eq_refl) as [Hpl _].
  cbn [handle] in Hsongs, Hpl. rewrite Hok in Hf, Hs. rewrite Hf, Hs, Hsongs, Hpl.
  destruct (includes songId (favorites (app w))) eqn:Hin.
  - apply includes_In in Hin.
    split; [split|split; [intros other Hne; split|repeat split]].
    + intros Hq. apply without_In in Hq. now destruct Hq.
    + intros Hq. contradiction.
    + intros Hq. now apply without_In in Hq.
    + intros Hq. apply without_In. now split.
  - apply includes_false in Hin.
    split; [split|split; [intros other Hne; split|repeat split]].
    + intros _. exact Hin.
    + intros _. apply in_or_app. right. now left.
    + intros Hq. apply in_app_or in Hq. destruct Hq as [Hq|[Hq|[]]];
        [exact Hq|congruence].
    + intros Hq. apply in_or_app. now left.
Qed.

(** X8: toggling twice.  When the favorites key can be written, toggling the
    same id twice gives back the same set of favorites; the array itself is
    the original when the id was no favorite, and otherwise has the id
    moved to the end. *)
Theorem toggleFavorite_twice (w : World) (songId : string) :
  store_fails env FAVORITES_KEY = false ->
  let w2 := step env (step env w (OpToggleFavorite songId)) (OpToggleFavorite songId) in
  (~ In songId (favorites (app w)) -> favorites (app w2) = favorites (app w)) /\
  (In songId (favorites (app w)) ->
   favorites (app w2) = (without songId (favorites (app w)) ++ [songId])%list) /\
  (forall id, In id (favorites (app w2)) <-> In id (favorites (app w))).
Proof.
  intros Hok. cbv zeta.
  set (w1 := step env w (OpToggleFavorite songId)).
  assert (H1 : favorites (app w1) =
               if includes songId (favorites (app w))
               then without songId (favorites (app w))
               else (favorites (app w) ++ [songId])%list).
  { unfold w1. rewrite step_app. cbn [handle].
    destruct (toggleFavorite_outcome env w songId) as [Hf _]. now rewrite Hf, Hok. }
  assert (H2 : favorites (app (step env w1 (OpToggleFavorite songId))) =
               if includes songId (favorites (app w1))
               then without songId (favorites (app w1))
               else (favorites (app w1) ++ [songId])%list).
  { rewrite step_app. cbn [handle].
    destruct (toggleFavorite_outcome env w1 songId) as [Hf _]. now rewrite Hf, Hok. }
  rewrite H2, H1. clear H1 H2.
  destruct (includes songId (favorites (app w))) eqn:Hin.
  - assert (Hout : includes songId (without songId (favorites (app w))) = false).
    { apply includes_false. intros H. apply without_In in H. now destruct H. }
    rewrite Hout. apply includes_In in Hin.
    split; [intros Hq; contradiction|]. split; [reflexivity|].
    intros id. split.
    + intros Hq. apply in_app_or in Hq. destruct Hq as [Hq|[<-|[]]]; [|exact Hin].
      now apply without_In in Hq.
    + intros Hq. apply in_or_app.
      destruct (string_dec id songId) as [->|Hne]; [right; now left|].
      left. apply without_In. now split.
  - assert (Hnow : includes songId (favorites (app w) ++ [songId]) = true).
    { apply includes_In, in_or_app. right. now left. }
    rewrite Hnow. apply includes_false in Hin.
    assert (Hback : without songId (favorites (app w) ++ [songId]) = favorites (app w)).
    { unfold without. rewrite filter_app. simpl. rewrite String.eqb_refl. simpl.
      rewrite app_nil_r. now apply without_absent. }
    rewrite Hback.
    split; [reflexivity|]. split; [intros Hq; contradiction|]. intros id. tauto.
Qed.

(** X9: a failed write of the favorites is silent.  When the favorites key
    cannot be written, [toggleFavorite] changes neither the hooks nor the
    store and shows no alert: the tap has no visible effect at all. *)
Theorem toggleFavorite_fails_silently (w : World) (songId : string) :
  store_fails env FAVORITES_KEY = true ->
  let w' := step env w (OpToggleFavorite songId) in
  app w' = app w /\ store w' = store w /\ silent w w'.
Proof.
  intros Hfail. unfold silent. unfold_async. rewrite Hfail. simpl.
  destruct (sound (app w)); simpl; rewrite ?Nat.eqb_refl; simpl.
  all: repeat split.
  all: eexists; split; [simpl; rewrite <- ?app_assoc; simpl; reflexivity | reflexivity].
Qed.

End Favorites.

Section Views.

Variable env : Env.

(** X10: [deletePlaylist] after the confirmation.  When the playlists key can
    be written, no playlist of the deleted id is left, the other playlists
    stay in their order, the selected playlist (if any is left selected) is
    not the deleted one, and songs and favorites are untouched; declining
    the confirmation changes nothing at all. *)
Theorem deletePlaylist_removes (w : World) (playlistId : string) :
  store_fails env PLAYLISTS_KEY = false ->
  let w' := step env w (OpDeletePlaylist playlistId true) in
  playlists (app w') =
    filter (fun p => negb (pl_id p =? playlistId)) (playlists (app w)) /\
  (forall p, In p (playlists (app w')) -> pl_id p <> playlistId) /\
  (forall p, selectedPlaylist (app w') = Some p -> pl_id p <> playlistId) /\
  saved_playlists (store w') = Json (playlists (app w')) /\
  songs (app w') = songs (app w) /\
  favorites (app w') = favorites (app w) /\
  step env w (OpDeletePlaylist playlistId false) = w.
Proof.
  intros Hok. cbv zeta.
  assert (Hno : step env w (OpDeletePlaylist playlistId false) = w).
  { unfold step. cbn [handle deletePlaylist when].
    change (exec (ret tt) w) with w. now apply sound_cleanup_same. }
  rewrite Hno. rewrite step_app, step_store. unfold_async. rewrite Hok. simpl.
  destruct (selectedPlaylist (app w)) as [sel|] eqn:Hsel; simpl.
  - destruct (pl_id sel =? playlistId) eqn:Hid; simpl; rewrite ?Hsel.
    + repeat split; try discriminate.
      intros p Hp. apply filter_In in Hp. destruct Hp as [_ Hp].
      now apply negb_true_iff, String.eqb_neq in Hp.
    + repeat split.
      * intros p Hp. apply filter_In in Hp. destruct Hp as [_ Hp].
        now apply negb_true_iff, String.eqb_neq in Hp.
      * intros p Hp. injection Hp as <-. now apply String.eqb_neq.
  - rewrite ?Hsel. repeat split; try discriminate.
    intros p Hp. apply filter_In in Hp. destruct Hp as [_ Hp].
    now apply negb_true_iff, String.eqb_neq in Hp.
Qed.

Lemma filter_filter_comm {A} (f g : A -> bool) (l : list A) :
  filter f (filter g l) = filter g (filter f l).
Proof.
  induction l as [|x l IH]; simpl; [reflexivity|].
  destruct (f x) eqn:Ef, (g x) eqn:Eg; simpl; rewrite ?Ef, ?Eg, IH; reflexivity.
Qed.

Lemma includes_without (x songId : string) (ids : list string) :
  x <> songId -> includes x (without songId ids) = includes x ids.
Proof.
  intros Hne. destruct (includes x ids) eqn:Hin.
  - apply includes_In, without_In. split; [now apply includes_In | exact Hne].
  - apply includes_false. intros H. apply without_In in H. destruct H as [H _].
    apply includes_In in H. congruence.
Qed.

Lemma filter_without_favorites (songId : string) (favs : list string) (l : list Song) :
  filter (fun song => negb (song_id song =? songId))
         (filter (fun song => includes (song_id song) (without songId favs)) l) =
  filter (fun song => negb (song_id song =? songId))
         (filter (fun song => includes (song_id song) favs) l).
Proof.
  induction l as [|x l IH]; simpl; [reflexivity|].
  destruct (String.eqb_spec (song_id x) songId) as [Heq|Hne].
  - destruct (includes (song_id x) (without songId favs)),
             (includes (song_id x) favs); simpl;
      rewrite ?(proj2 (String.eqb_eq _ _) Heq); simpl; exact IH.
  - rewrite (includes_without _ _ _ Hne).
    destruct (includes (song_id x) favs); simpl;
      rewrite ?(proj2 (String.eqb_neq _ _) Hne); simpl; now rewrite IH.
Qed.

(** X11: what the list shows.  In every view the shown songs are songs of the
    catalog, in catalog order; the favorites view shows exactly the songs
    whose id is a favorite, so a dangling favorite id shows nothing; the
    playlist view shows exactly the songs whose id is in the selected
    playlist. *)
Theorem getDisplaySongs_shows (r : AppState) :
  (exists keep, getDisplaySongs r = filter keep (songs r)) /\
  (forall song, In song (getDisplaySongs r) -> In song (songs r)) /\
  (currentView r = ViewFavorites ->
   forall song, In song (getDisplaySongs r) <->
                In song (songs r) /\ In (song_id song) (favorites r)) /\
  (currentView r = ViewPlaylist ->
   forall p, selectedPlaylist r = Some p ->
   forall song, In song (getDisplaySongs r) <->
                In song (songs r) /\ In (song_id song) (pl_songs p)) /\
  ((currentView r = ViewAll \/ selectedPlaylist r = None /\ currentView r = ViewPlaylist) ->
   getDisplaySongs r = songs r).
Proof.
  unfold getDisplaySongs.
  split; [|split; [|split; [|split]]].
  - destruct (currentView r); [exists (fun _ => true) | eexists; reflexivity | ].
    + induction (songs r) as [|x l IH]; simpl; congruence.
    + destruct (selectedPlaylist r); [eexists; reflexivity | exists (fun _ => true)].
      induction (songs r) as [|x l IH]; simpl; congruence.
  - intros song. destruct (currentView r); [tauto | intros H; now apply filter_In in H |].
    destruct (selectedPlaylist r); [intros H; now apply filter_In in H | tauto].
  - intros -> song. rewrite filter_In, includes_In. reflexivity.
  - intros -> p -> song. rewrite filter_In, includes_In. reflexivity.
  - intros [->|[-> ->]]; reflexivity.
Qed.

(** X12: a deleted song leaves every view.  When the file deletion does not
    raise, the songs shown after [deleteSong] are the songs shown before
    without the songs of the deleted id, in every view and whichever store
    writes fail. *)
Theorem deleteSong_leaves_views (w : World) (songId : string) :
  (forall song, find (fun s => song_id s =? songId) (songs (app w)) = Some song ->
                delete_fails env (song_uri song) = false) ->
  let w' := step env w (OpDeleteSong songId) in
  getDisplaySongs (app w') =
    filter (fun song => negb (song_id song =? songId)) (getDisplaySongs (app w)).
Proof.
  intros Hdel. cbv zeta.
  assert (E : let wd := exec (deleteSong env (app w) songId) w in
              songs (app wd) =
                filter (fun song => negb (song_id song =? songId)) (songs (app w)) /\
              (favorites (app wd) = favorites (app w) \/
               favorites (app wd) = without songId (favorites (app w))) /\
              selectedPlaylist (app wd) = selectedPlaylist (app w) /\
              currentView (app wd) = currentView (app w)).
  { unfold_async.
    destruct (find _ _) as [song|] eqn:Hfind; [rewrite (Hdel song eq_refl)|].
    all: destruct (store_fails env FAVORITES_KEY) eqn:Hf.
    all: destruct (negb (List.length _ =? List.length _)%nat) eqn:Hlen.
    all: split_branches; repeat split; try reflexivity;
         first [left; reflexivity | right; reflexivity]. }
  cbv zeta in E. destruct E as (Hs & Hf & Hsel & Hview).
  rewrite step_app. cbn [handle]. unfold getDisplaySongs.
  rewrite Hs, Hsel, Hview.
  destruct (currentView (app w)); [reflexivity | | ].
  - rewrite filter_filter_comm.
    destruct Hf as [->| ->]; [reflexivity|]. apply filter_without_favorites.
  - destruct (selectedPlaylist (app w)); [apply filter_filter_comm | reflexivity].
Qed.

(** X13: what was added to the playlist on view does not show.  The playlist
    view filters by the copy of the playlist taken when it was selected, so
    adding a song to any playlist, the viewed one included, leaves the
    shown songs as they were. *)
Theorem addSongToPlaylist_not_shown (w : World) (playlistId : string) (item : Song) :
  let w' := addSongToPlaylist env w playlistId item in
  getDisplaySongs (app w') = getDisplaySongs (app w) /\
  selectedPlaylist (app w') = selectedPlaylist (app w).
Proof.
  cbv zeta. unfold getDisplaySongs. unfold_async.
  destruct (sound (app w)) as [h|] eqn:Hs; simpl; rewrite ?Hs, ?Nat.eqb_refl; simpl.
  all: destruct (store_fails env PLAYLISTS_KEY); simpl;
       rewrite ?Hs, ?Nat.eqb_refl; simpl; split; reflexivity.
Qed.

End Views.

Lemma two_digits (n : N) :
  (n <= 60)%N ->
  String.length ((if (n <? 10)%N then "0" else "") ++ toString n) = 2.
Proof.
  intros H.
  assert (Hn : exists k, (k <= 60)%nat /\ n = N.of_nat k).
  { exists (N.to_nat n). split; [lia | now rewrite N2Nat.id]. }
  destruct Hn as (k & Hk & ->).
  do 61 (destruct k as [|k]; [reflexivity|]). lia.
Qed.

(** X14: [formatTime] rounds the seconds and does not carry.  For a whole
    number of milliseconds up to [MAX_SAFE_INTEGER], the text is the
    minutes, a colon and a seconds field of exactly two characters; the
    seconds are the remainder rounded to the nearest second, so the field
    reads 60 (and the minutes are not advanced) exactly in the last half
    second of a minute. *)
Theorem formatTime_seconds_field (millis : N) :
  (millis <= MAX_SAFE_INTEGER)%N ->
  let seconds := ((millis mod 60000 + 500) / 1000)%N in
  exists field,
    formatTime millis = toString (millis / 60000) ++ ":" ++ field /\
    String.length field = 2 /\
    (seconds <= 60)%N /\
    (field = "60" <-> (59500 <= millis mod 60000)%N).
Proof.
  intros _. cbv zeta. unfold formatTime. cbv zeta.
  pose proof (N.mod_upper_bound millis 60000 ltac:(discriminate)) as Hr.
  set (r := (millis mod 60000)%N) in *.
  assert (Hs : ((r + 500) / 1000 <= 60)%N).
  { apply N.lt_succ_r. apply N.Div0.div_lt_upper_bound. lia. }
  eexists. split; [reflexivity|]. split; [now apply two_digits|]. split; [exact Hs|].
  set (sec := ((r + 500) / 1000)%N) in *.
  assert (H60 : sec = 60%N <-> (59500 <= r)%N).
  { unfold sec. split; intros H.
    - assert (60 * 1000 <= r + 500)%N; [|lia].
      rewrite <- H. rewrite N.mul_comm. apply N.Div0.mul_div_le.
    - apply N.le_antisymm; [exact Hs|]. apply N.div_le_lower_bound; lia. }
  rewrite <- H60. split.
  - intros H. assert (Hk : exists k, (k <= 60)%nat /\ sec = N.of_nat k).
    { exists (N.to_nat sec). split; [lia | now rewrite N2Nat.id]. }
    destruct Hk as (k & Hk & Hsec). rewrite Hsec in *.
    do 61 (destruct k as [|k]; [first [reflexivity | discriminate H]|]). lia.
  - intros ->. reflexivity.
Qed.

Section Transport.

Variable env : Env.

(** X15: [stopSound] empties the session and is idempotent.  In every
    reachable world with a sound object, stopping leaves the empty session
    and no live handle, and leaves catalog and store alone; a second stop
    does nothing. *)
Theorem stopSound_idles
    (s : Store) (fs : list string) (t : N) (ops : list Op) :
  let w := run env ops (mount env s fs t) in
  let w1 := step env w OpStopSound in
  (sound (app w) <> None -> Idle (app w1)) /\
  (sound (app w) = None -> w1 = w) /\
  live w1 = [] /\
  catalog (app w1) = catalog (app w) /\
  store w1 = store w /\
  step env w1 OpStopSound = w1.
Proof.
  cbv zeta.
  pose proof (reachable_session_ok env s fs t ops) as [_ Hlive].
  set (w := run env ops (mount env s fs t)) in *.
  assert (Hnone : forall w0, sound (app w0) = None -> step env w0 OpStopSound = w0).
  { intros w0 H0. unfold step. cbn [handle]. unfold stopSound. rewrite H0.
    change (exec (ret tt) w0) with w0. now apply sound_cleanup_same. }
  destruct (sound (app w)) as [h|] eqn:Hs.
  - assert (Hafter : sound (app (step env w OpStopSound)) = None).
    { unfold_async. rewrite ?Hs. simpl. rewrite ?Hs. reflexivity. }
    split; [|split; [discriminate|split; [|split; [|split]]]].
    + intros _. unfold_async. rewrite ?Hs. simpl. rewrite ?Hs. simpl. repeat split.
    + unfold_async. rewrite ?Hs. simpl. rewrite ?Hs. simpl.
      destruct Hlive as [->|(h' & -> & Hh')]; [reflexivity|].
      injection Hh' as <-. simpl. now rewrite Nat.eqb_refl.
    + unfold catalog. unfold_async. rewrite ?Hs. simpl. rewrite ?Hs. reflexivity.
    + unfold_async. rewrite ?Hs. simpl. rewrite ?Hs. reflexivity.
    + apply Hnone, Hafter.
  - rewrite (Hnone w Hs).
    split; [intros H; now elim H|]. split; [reflexivity|].
    split; [destruct Hlive as [->|(h' & _ & Hh')]; [reflexivity|discriminate]|].
    split; [reflexivity|]. split; [reflexivity|]. apply Hnone, Hs.
Qed.

(** X16: the play button after the end of a track.  The status callback of a
    finished track clears [isPlaying] and the position but keeps the sound
    object, the current song and the live handle; the next tap on
    play/pause therefore sends [playAsync] to that same handle, and creates
    or releases nothing. *)
Theorem finished_track_replays (w : World) (h : Handle) (status : PlaybackStatus) :
  sound (app w) = Some h ->
  status_isLoaded status = true ->
  status_didJustFinish status = true ->
  let w1 := step env w (OpStatus status) in
  let w2 := step env w1 OpTogglePlayPause in
  isPlaying (app w1) = false /\
  position (app w1) = 0%Z /\
  duration (app w1) = status_durationMillis status /\
  sound (app w1) = Some h /\
  currentSong (app w1) = currentSong (app w) /\
  live w1 = live w /\
  log w2 = (log w1 ++ [EvPlay h])%list /\
  app w2 = app w1 /\
  live w2 = live w.
Proof.
  intros Hs Hl Hf. cbv zeta. unfold_async. rewrite Hl, Hf. simpl.
  repeat (progress (rewrite ?Hs, ?Nat.eqb_refl; simpl)). repeat split.
  all: repeat (progress (rewrite ?Hs, ?Nat.eqb_refl; simpl)); reflexivity.
Qed.

End Transport.

From Stdlib Require Import DecimalN.

Lemma toString_inj (a b : N) : toString a = toString b -> a = b.
Proof.
  assert (Hnil : forall n, N.to_uint n <> Decimal.Nil).
  { intros n H. pose proof (DecimalN.Unsigned.of_to n) as Hn.
    rewrite H in Hn. simpl in Hn. subst n. discriminate H. }
  unfold toString. intros H.
  apply (f_equal NilZero.uint_of_string) in H.
  rewrite !NilZero.usu in H by apply Hnil.
  injection H as H. now apply DecimalN.Unsigned.to_uint_inj.
Qed.

Lemma truthy_append (a b : string) : truthy b = true -> truthy (a ++ b) = true.
Proof.
  unfold truthy. destruct b; [discriminate|]. intros _.
  induction a; simpl; [reflexivity|reflexivity].
Qed.

Lemma song_ids_filter (songId id : string) (l : list Song) :
  In id (song_ids l) -> id <> songId ->
  In id (song_ids (filter (fun song => negb (song_id song =? songId)) l)).
Proof.
  unfold song_ids. intros Hin Hne. apply in_map_iff in Hin.
  destruct Hin as (x & <- & Hx). apply in_map_iff. exists x. split; [reflexivity|].
  apply filter_In. split; [exact Hx|]. now apply negb_true_iff, String.eqb_neq.
Qed.

Section Picking.

Variable env : Env.

Lemma pickSong_step (w : World) (file : Asset) :
  copy_fails env (asset_uri file) = false ->
  let w' := step env w (OpPickSong (Some file)) in
  let song := pickedSong env file (now w) (copied_at env file w) in
  songs (app w') = (songs (app w) ++ [song])%list /\
  files w' = song_uri song :: files w /\
  saved_songs (store w') =
    (if store_fails env SONGS_KEY then saved_songs (store w)
     else Json (songs (app w'))) /\
  favorites (app w') = favorites (app w) /\
  playlists (app w') = playlists (app w) /\
  now w' = copied_at env file w /\
  currentSong (app w') = currentSong (app w) /\
  reported "Success" "Song added successfully!" w w'.
Proof.
  intros Hc. cbv zeta. unfold reported, pickedSong, pickedName, copied_at. unfold_async.
  rewrite Hc. simpl.
  destruct (store_fails env SONGS_KEY); simpl;
    destruct (sound (app w)) as [h|]; simpl; rewrite ?Nat.eqb_refl; simpl.
  all: repeat split.
  all: eexists; split; [simpl; rewrite <- ?app_assoc; simpl; reflexivity | simpl; tauto].
Qed.

(** X17: a picked file becomes a song with a file behind it.  When the copy
    succeeds, [pickSong] appends one song to the song list.  Its id is the
    time at which the copy is over; its name is the file's, or
    [song_<time>.mp3] with the time at which the copy began when the picker
    gives no name; it is stored under the music directory at a path that
    exists afterwards.  Favorites and playlists stay; the success alert is
    shown, and the new list is persisted when the songs key can be
    written. *)
Theorem pickSong_adds (w : World) (file : Asset) :
  copy_fails env (asset_uri file) = false ->
  let w' := step env w (OpPickSong (Some file)) in
  exists song,
    songs (app w') = (songs (app w) ++ [song])%list /\
    song_id song = toString (now w + copy_millis env (asset_uri file)) /\
    song_name song =
      (if truthy (asset_name file) then asset_name file
       else "song_" ++ toString (now w) ++ ".mp3") /\
    song_uri song = MUSIC_DIRECTORY env ++ song_name song /\
    In (song_uri song) (files w') /\
    favorites (app w') = favorites (app w) /\
    playlists (app w') = playlists (app w) /\
    reported "Success" "Song added successfully!" w w' /\
    (store_fails env SONGS_KEY = false ->
     saved_songs (store w') = Json (songs (app w'))).
Proof.
  intros Hc. cbv zeta.
  destruct (pickSong_step w file Hc) as (Hs & Hf & Hst & Hfav & Hpl & _ & _ & Hr).
  exists (pickedSong env file (now w) (copied_at env file w)).
  repeat (split; [first [assumption | reflexivity]|]).
  split; [rewrite Hf; now left|].
  repeat (split; [assumption|]).
  intros Hok. now rewrite Hst, Hok.
Qed.

(** X18: a failed or cancelled pick adds nothing.  When the copy raises, the
    song list, the store and the files are as before and the error alert
    is shown; a cancelled picker changes nothing at all. *)
Theorem pickSong_fails_cleanly (w : World) (file : Asset) :
  copy_fails env (asset_uri file) = true ->
  let w' := step env w (OpPickSong (Some file)) in
  app w' = app w /\ store w' = store w /\ files w' = files w /\
  reported "Error" "Failed to add song" w w' /\
  step env w (OpPickSong None) = w.
Proof.
  intros Hc. cbv zeta.
  assert (Hcancel : step env w (OpPickSong None) = w).
  { unfold step. cbn [handle].
    change (exec (pickSong env (app w) None) w) with w.
    now apply sound_cleanup_same. }
  rewrite Hcancel. clear Hcancel.
  split; [|split; [|split; [|split; [|reflexivity]]]].
  all: unfold reported; unfold_async; rewrite Hc; simpl;
       destruct (sound (app w)) as [h|]; simpl; rewrite ?Nat.eqb_refl; simpl;
       try reflexivity.
  all: eexists; split; [simpl; rewrite <- ?app_assoc; simpl; reflexivity | simpl; tauto].
Qed.

(** X19: a picked song is there after a restart.  When the copy succeeds and
    the songs key can be written, mounting again on the store and the files
    that [pickSong] left loads a song list that holds the new song. *)
Theorem picked_song_survives_restart (w : World) (file : Asset) (t' : N) :
  copy_fails env (asset_uri file) = false ->
  store_fails env SONGS_KEY = false ->
  let w' := step env w (OpPickSong (Some file)) in
  let w2 := mount env (store w') (files w') t' in
  exists song,
    songs (app w') = (songs (app w) ++ [song])%list /\
    In song (songs (app w2)).
Proof.
  intros Hc Hok. cbv zeta.
  destruct (pickSong_step w file Hc) as (Hs & Hf & Hst & _).
  rewrite Hok in Hst.
  exists (pickedSong env file (now w) (copied_at env file w)). split; [exact Hs|].
  set (w' := step env w (OpPickSong (Some file))) in *.
  destruct (mount_world env (store w') (files w') t') as (Hfiles & Ha & _).
  rewrite Ha. unfold loadedApp. cbn [songs]. rewrite Hst. cbn [slot_value].
  apply filter_In. split; [rewrite Hs; apply in_or_app; right; now left|].
  apply existsb_exists.
  exists (song_uri (pickedSong env file (now w) (copied_at env file w))).
  split; [|apply String.eqb_refl].
  unfold mounted_files. rewrite Hf.
  destruct (existsb _ _); [now left | right; now left].
Qed.

Lemma wait_step (w : World) (millis : N) :
  let w' := step env w (OpWait millis) in
  app w' = app w /\ files w' = files w /\ now w' = (now w + millis)%N.
Proof.
  unfold_async. destruct (sound (app w)) eqn:Hs; simpl; rewrite ?Hs; simpl;
    rewrite ?Nat.eqb_refl; repeat split.
Qed.

Lemma deleteSong_deletes_file (w : World) (songId : string) (song : Song) :
  find (fun s => song_id s =? songId) (songs (app w)) = Some song ->
  truthy (song_uri song) = true ->
  existsb (String.eqb (song_uri song)) (files w) = true ->
  delete_fails env (song_uri song) = false ->
  let wd := exec (deleteSong env (app w) songId) w in
  songs (app wd) =
    filter (fun s => negb (song_id s =? songId)) (songs (app w)) /\
  files wd = filter (fun p => negb (p =? song_uri song)) (files w).
Proof.
  intros Hfind Hpath Hex Hd. unfold_async. rewrite Hfind, Hpath, Hd.
  destruct (has_id (currentSong (app w)) songId);
    [destruct (sound (app w))|]; simpl; rewrite Hex; simpl.
  all: destruct (store_fails env SONGS_KEY); simpl.
  all: destruct (negb (List.length _ =? List.length _)%nat); simpl.
  all: destruct (store_fails env FAVORITES_KEY); simpl.
  all: destruct (store_fails env PLAYLISTS_KEY); simpl.
  all: split; reflexivity.
Qed.

(** X20: two picks of one file name share one file.  The stored path depends
    on the file name only, so picking a file of the same name again (later,
    so that the ids differ) gives a second song with the path of the first;
    deleting the first song then deletes that file, and the second song
    stays in the list with no file behind it.  The ids are the times at
    which the two copies are over. *)
Theorem same_name_shares_file (w : World) (file : Asset) (later : N) :
  truthy (asset_name file) = true ->
  copy_fails env (asset_uri file) = false ->
  delete_fails env (MUSIC_DIRECTORY env ++ asset_name file) = false ->
  ~ In (toString (copied_at env file w)) (song_ids (songs (app w))) ->
  (0 < later)%N ->
  let first := mkSong (toString (copied_at env file w)) (asset_name file)
                      (MUSIC_DIRECTORY env ++ asset_name file) in
  let second := mkSong (toString (copied_at env file w + later +
                                  copy_millis env (asset_uri file)))
                       (asset_name file)
                       (MUSIC_DIRECTORY env ++ asset_name file) in
  let w2 := run env [OpPickSong (Some file); OpWait later; OpPickSong (Some file)] w in
  let w3 := step env w2 (OpDeleteSong (song_id first)) in
  songs (app w2) = (songs (app w) ++ [first; second])%list /\
  songs (app w3) = (songs (app w) ++ [second])%list /\
  ~ In (song_uri second) (files w3).
Proof.
  intros Hname Hc Hd Hfresh Hlater. cbv zeta.
  set (d := copy_millis env (asset_uri file)).
  set (t1 := copied_at env file w) in *.
  assert (Hids : toString (t1 + later + d) <> toString t1).
  { intros H. apply toString_inj in H. lia. }
  unfold run. cbn [fold_left].
  destruct (pickSong_step w file Hc) as (Hs1 & Hf1 & _ & _ & _ & Hn1 & _).
  fold t1 in Hs1, Hf1, Hn1.
  set (w1 := step env w (OpPickSong (Some file))) in *.
  destruct (wait_step w1 later) as (Ha & Hfw & Hnw).
  set (ww := step env w1 (OpWait later)) in *.
  destruct (pickSong_step ww file Hc) as (Hs2 & Hf2 & _).
  set (w2 := step env ww (OpPickSong (Some file))) in *.
  assert (Ht2 : copied_at env file ww = (t1 + later + d)%N).
  { unfold copied_at. rewrite Hnw, Hn1. reflexivity. }
  unfold pickedSong, pickedName in Hs1, Hf1, Hs2, Hf2. rewrite Hname in *.
  rewrite Ht2, Ha, Hs1, <- app_assoc in Hs2. simpl in Hs2, Hf1, Hf2.
  rewrite Hfw, Hf1 in Hf2.
  split; [exact Hs2|].
  rewrite step_app, step_files. cbn [handle song_id].
  set (path := MUSIC_DIRECTORY env ++ asset_name file) in *.
  set (first := mkSong (toString t1) (asset_name file) path) in *.
  assert (Hfind : find (fun s => song_id s =? toString t1) (songs (app w2)) =
                  Some first).
  { rewrite Hs2. clear - Hfresh. induction (songs (app w)) as [|x l IH]; simpl.
    - now rewrite String.eqb_refl.
    - destruct (String.eqb_spec (song_id x) (toString t1)) as [Heq|_].
      + exfalso. apply Hfresh. left. exact Heq.
      + apply IH. intros H. apply Hfresh. right. exact H. }
  assert (Hex : existsb (String.eqb path) (files w2) = true).
  { rewrite Hf2. simpl. now rewrite String.eqb_refl. }
  assert (Hpath : truthy path = true) by (apply truthy_append, Hname).
  destruct (deleteSong_deletes_file w2 (toString t1) first Hfind Hpath Hex Hd)
    as [Es Ef].
  rewrite Es, Ef, Hs2. split.
  - rewrite filter_app. rewrite (songs_without_absent _ _ Hfresh). simpl.
    rewrite String.eqb_refl. simpl.
    now rewrite (proj2 (String.eqb_neq _ _) Hids).
  - cbn [song_uri]. intros H. apply filter_In in H. destruct H as [_ H].
    rewrite String.eqb_refl in H. discriminate H.
Qed.

(** X21: [deleteSong] keeps I1 and I2.  When the favorites and the playlists
    keys can be written, a catalog in which every favorite and every
    playlist entry is a song's id is still such a catalog after
    [deleteSong], whether the file deletion raised or not. *)
Theorem deleteSong_keeps_references (w : World) (songId : string) :
  store_fails env FAVORITES_KEY = false ->
  store_fails env PLAYLISTS_KEY = false ->
  I1 (app w) -> I2 (app w) ->
  let w' := step env w (OpDeleteSong songId) in
  I1 (app w') /\ I2 (app w').
Proof.
  intros Hf Hp H1 H2. cbv zeta. rewrite step_app. cbn [handle].
  destruct (deleteSong_outcome env w songId)
    as [[Hcat _]|(Hs & _ & Hfav & _ & Hpl & _)].
  - unfold catalog in Hcat. injection Hcat as Hs Hfav Hpl.
    unfold I1, I2. rewrite Hs, Hfav, Hpl. now split.
  - rewrite Hf in Hfav. rewrite Hp in Hpl. unfold I1, I2. rewrite Hs, Hfav, Hpl.
    split.
    + intros id Hin. apply without_In in Hin. destruct Hin as [Hin Hne].
      apply song_ids_filter; [now apply H1 | exact Hne].
    + intros p id Hin Hid. apply in_map_iff in Hin. destruct Hin as (q & <- & Hq).
      simpl in Hid. apply without_In in Hid. destruct Hid as [Hid Hne].
      apply song_ids_filter; [now apply (H2 q) | exact Hne].
Qed.

(** X22: a failed favorites write leaves a dangling favorite.  When the
    song's file is deleted but the favorites key cannot be written,
    [deleteSong] removes a favorite song from the song list and leaves its
    id in the favorites: I1 is broken. *)
Theorem deleteSong_unwritable_favorites (w : World) (songId : string) :
  (forall song, find (fun s => song_id s =? songId) (songs (app w)) = Some song ->
                delete_fails env (song_uri song) = false) ->
  store_fails env FAVORITES_KEY = true ->
  In songId (favorites (app w)) ->
  let w' := step env w (OpDeleteSong songId) in
  In songId (favorites (app w')) /\
  ~ In songId (song_ids (songs (app w'))) /\
  ~ I1 (app w').
Proof.
  intros Hdel Hf Hin. cbv zeta. rewrite step_app. cbn [handle].
  assert (E : let wd := exec (deleteSong env (app w) songId) w in
              songs (app wd) =
                filter (fun song => negb (song_id song =? songId)) (songs (app w)) /\
              favorites (app wd) = favorites (app w)).
  { unfold_async. rewrite Hf.
    destruct (find _ _) as [song|] eqn:Hfind; [rewrite (Hdel song eq_refl)|].
    all: destruct (negb (List.length _ =? List.length _)%nat).
    all: split_branches; split; reflexivity. }
  cbv zeta in E. destruct E as [Es Ef].
  assert (Hgone : ~ In songId (song_ids (songs (app (exec (deleteSong env (app w) songId) w))))).
  { rewrite Es. apply songs_without_In. }
  split; [rewrite Ef; exact Hin|]. split; [exact Hgone|].
  intros H1. apply Hgone, H1. rewrite Ef. exact Hin.
Qed.

End Picking.

Section BasicPlayer.

Variable env : Env.

Lemma basic_step_session_ok (w : Basic.World) (op : Basic.Op) :
  Basic.session_ok w -> Basic.session_ok (Basic.step env w op).
Proof.
  unfold Basic.session_ok. intros Hok.
  destruct op; simpl.
  - unfold Basic.pickSongs. destruct result; simpl; exact Hok.
  - unfold Basic.playSound.
    destruct (Basic.sound (Basic.app w)) as [h0|] eqn:Hs;
      destruct (create_fails env (asset_uri song)); simpl.
    all: destruct Hok as [Hl|(h' & Hl & Hh')]; rewrite ?Hl; simpl;
         try (injection Hh' as <-); try discriminate Hh';
         rewrite ?Nat.eqb_refl; simpl.
    all: first [ left; reflexivity | right; eexists; split; reflexivity ].
  - unfold Basic.onPlaybackStatusUpdate. destruct (status_didJustFinish status);
      simpl; exact Hok.
  - unfold Basic.pauseSound. destruct (Basic.sound (Basic.app w)) eqn:Hs; simpl;
      rewrite ?Hs; exact Hok.
  - unfold Basic.resumeSound. destruct (Basic.sound (Basic.app w)) eqn:Hs; simpl;
      rewrite ?Hs; exact Hok.
  - unfold Basic.stopSound. destruct (Basic.sound (Basic.app w)) eqn:Hs; simpl;
      rewrite ?Hs; exact Hok.
Qed.

Lemma basic_run_session_ok (ops : list Basic.Op) (w : Basic.World) :
  Basic.session_ok w -> Basic.session_ok (Basic.run env ops w).
Proof.
  revert w. induction ops as [|op ops IH]; intros w Hok; [exact Hok|].
  simpl. apply IH, basic_step_session_ok, Hok.
Qed.

(** X23: the first player keeps one handle.  After any sequence of
    operations from the start, at most one engine handle is live, and it is
    the one the [sound] hook holds: [playSound] unloads the previous sound
    before it creates the next. *)
Theorem basic_one_live_handle (ops : list Basic.Op) :
  let w := Basic.run env ops Basic.initialWorld in
  (List.length (Basic.live w) <= 1)%nat /\
  (forall h, In h (Basic.live w) -> Basic.sound (Basic.app w) = Some h).
Proof.
  cbv zeta.
  destruct (basic_run_session_ok ops Basic.initialWorld (or_introl eq_refl))
    as [Hl|(h & Hl & Hs)]; rewrite Hl; simpl.
  - split; [lia | now intros h []].
  - split; [lia | intros h' [<-|[]]; exact Hs].
Qed.

(** X24: in the first player Stop is a pause.  [stopSound] commands the
    engine to stop and clears [playing], but keeps the sound object, the
    current song and the live handle; a tap on Play afterwards resumes that
    same handle. *)
Theorem basic_stop_keeps_handle (w : Basic.World) (h : Handle) :
  Basic.sound (Basic.app w) = Some h ->
  let w1 := Basic.step env w Basic.OpStop in
  let w2 := Basic.step env w1 Basic.OpResume in
  Basic.playing (Basic.app w1) = false /\
  Basic.sound (Basic.app w1) = Some h /\
  Basic.currentSong (Basic.app w1) = Basic.currentSong (Basic.app w) /\
  Basic.live w1 = Basic.live w /\
  Basic.log w1 = (Basic.log w ++ [EvStop h])%list /\
  Basic.playing (Basic.app w2) = true /\
  Basic.log w2 = (Basic.log w ++ [EvStop h; EvPlay h])%list /\
  Basic.live w2 = Basic.live w.
Proof.
  intros Hs. cbv zeta. simpl. unfold Basic.stopSound. rewrite Hs. simpl.
  unfold Basic.resumeSound. simpl. rewrite Hs. simpl.
  rewrite <- app_assoc. repeat split.
Qed.

(** X25: unmounting the first player releases nothing.  The cleanup of the
    mount effect closes over the first render, where [sound] is null, so it
    unloads nothing: after a successful [playSound] and the unmount, the
    handle of the played song is still live. *)
Theorem basic_unmount_keeps_handle (ops : list Basic.Op) (song : Asset) :
  create_fails env (asset_uri song) = false ->
  let w := Basic.run env ops Basic.initialWorld in
  let w' := Basic.unmount (Basic.step env w (Basic.OpPlaySound song)) in
  Basic.live w' = [Basic.next_handle w] /\
  Basic.sound (Basic.app w') = Some (Basic.next_handle w) /\
  (forall any, Basic.unmount any = any).
Proof.
  intros Hc. cbv zeta.
  pose proof (basic_run_session_ok ops Basic.initialWorld (or_introl eq_refl)) as Hok.
  set (w := Basic.run env ops Basic.initialWorld) in *.
  split; [|split; [|reflexivity]].
  - unfold Basic.unmount, Basic.cleanup. simpl. unfold Basic.playSound. rewrite Hc.
    destruct (Basic.sound (Basic.app w)) as [h0|] eqn:Hs; simpl.
    + destruct Hok as [Hl|(h' & Hl & Hh')]; rewrite Hl; simpl; [reflexivity|].
      rewrite Hs in Hh'. injection Hh' as <-. now rewrite Nat.eqb_refl.
    + destruct Hok as [Hl|(h' & Hl & Hh')]; [now rewrite Hl|].
      rewrite Hs in Hh'. discriminate Hh'.
  - unfold Basic.unmount, Basic.cleanup. simpl. unfold Basic.playSound. rewrite Hc.
    destruct (Basic.sound (Basic.app w)); reflexivity.
Qed.

End BasicPlayer.

(** ** The properties above on concrete devices *)

Lemma favorites_stay_unique_witness :
  favorites_unique
    (app (run Scenario.env
            [OpToggleFavorite "2"; OpToggleFavorite "1"; OpToggleFavorite "2";
             OpToggleFavorite "2"; OpDeleteSong "1"]
            Device.mounted)).
Proof.
  apply (favorites_stay_unique Scenario.env Scenario.saved Scenario.disk Scenario.t0).
  simpl. constructor; [now intros [] | constructor].
Defined.

Lemma playlists_stay_duplicate_free_witness :
  I3 (app (run Scenario.env
             [OpChooseSongToAdd Scenario.songB; OpAddToPlaylist "p1";
              OpChooseSongToAdd Scenario.songB; OpAddToPlaylist "p1";
              OpTypePlaylistName "Late"; OpCreatePlaylist]
             (mount Scenario.env Scenario.saved_solo Scenario.disk Scenario.t0))).
Proof.
  apply (playlists_stay_duplicate_free Scenario.env Scenario.saved_solo
           Scenario.disk Scenario.t0).
  intros p [<-|[]]. simpl. constructor; [now intros [] | constructor].
Defined.

Lemma favorites_and_playlists_persisted_witness :
  let w := run Device.env_readonly
             [OpToggleFavorite "2"; OpTypePlaylistName "Late"; OpCreatePlaylist;
              OpDeleteSong "1"]
             (mount Device.env_readonly Scenario.saved Scenario.disk Scenario.t0) in
  favorites_persisted w /\ playlists_persisted w.
Proof.
  apply (favorites_and_playlists_persisted Device.env_readonly Scenario.saved
           Scenario.disk Scenario.t0); reflexivity.
Defined.

Lemma songs_persisted_always_witness :
  songs_persisted
    (run Scenario.env [OpPickSong (Some Device.picked); OpDeleteSong "2"]
         Device.mounted).
Proof.
  apply (songs_persisted_always Scenario.env Scenario.saved Scenario.disk Scenario.t0);
    reflexivity.
Defined.

Lemma restart_restores_catalog_witness :
  let w := run Scenario.env
             [OpToggleFavorite "2"; OpPickSong (Some Device.picked); OpDeleteSong "1"]
             Device.mounted in
  let w2 := mount Scenario.env (store w) (files w) 1700000009000 in
  songs (app w2) = existing (files w2) (songs (app w)) /\
  favorites (app w2) = favorites (app w) /\
  playlists (app w2) = playlists (app w).
Proof.
  apply (restart_restores_catalog Scenario.env Scenario.saved Scenario.disk
           Scenario.t0); reflexivity.
Defined.

Lemma toggleFavorite_flips_witness :
  In "2" (favorites (app (step Scenario.env Device.mounted (OpToggleFavorite "2")))) /\
  ~ In "1" (favorites (app (step Scenario.env Device.mounted (OpToggleFavorite "1")))).
Proof.
  split.
  - destruct (toggleFavorite_flips Scenario.env Device.mounted "2" eq_refl)
      as ([_ Hin] & _).
    apply Hin. vm_compute. intros [H|[]]. discriminate H.
  - destruct (toggleFavorite_flips Scenario.env Device.mounted "1" eq_refl)
      as ([Hout _] & _).
    intros H. apply (Hout H). vm_compute. now left.
Defined.

Lemma toggleFavorite_twice_witness :
  favorites
    (app (step Scenario.env (step Scenario.env Device.mounted (OpToggleFavorite "2"))
               (OpToggleFavorite "2"))) =
  favorites (app Device.mounted).
Proof.
  destruct (toggleFavorite_twice Scenario.env Device.mounted "2" eq_refl)
    as (Hsame & _).
  apply Hsame. vm_compute. intros [H|[]]. discriminate H.
Defined.

Lemma toggleFavorite_fails_silently_witness :
  let w := mount Device.env_readonly Scenario.saved Scenario.disk Scenario.t0 in
  app (step Device.env_readonly w (OpToggleFavorite "2")) = app w.
Proof.
  apply (toggleFavorite_fails_silently Device.env_readonly
           (mount Device.env_readonly Scenario.saved Scenario.disk Scenario.t0)
           "2" eq_refl).
Defined.

Lemma deletePlaylist_removes_witness :
  playlists (app (step Scenario.env Device.mounted (OpDeletePlaylist "p1" true))) = [].
Proof.
  destruct (deletePlaylist_removes Scenario.env Device.mounted "p1" eq_refl)
    as (Hp & _).
  rewrite Hp. reflexivity.
Defined.

Lemma deleteSong_leaves_views_witness :
  let w := step Scenario.env Device.mounted OpViewFavorites in
  getDisplaySongs (app w) = [Scenario.songA] /\
  getDisplaySongs (app (step Scenario.env w (OpDeleteSong "1"))) = [].
Proof.
  cbv zeta. split; [reflexivity|].
  rewrite (deleteSong_leaves_views Scenario.env
             (step Scenario.env Device.mounted OpViewFavorites) "1").
  - reflexivity.
  - intros song _. reflexivity.
Defined.

Lemma finished_track_replays_witness :
  let w := step Scenario.env Device.mounted (OpPlaySong Scenario.songA) in
  let w1 := step Scenario.env w (OpStatus Device.finished) in
  let w2 := step Scenario.env w1 OpTogglePlayPause in
  currentSong (app w1) = Some Scenario.songA /\
  isPlaying (app w1) = false /\
  log w2 = (log w1 ++ [EvPlay 0])%list.
Proof.
  destruct (finished_track_replays Scenario.env
              (step Scenario.env Device.mounted (OpPlaySong Scenario.songA)) 0
              Device.finished eq_refl eq_refl eq_refl)
    as (Hp & _ & _ & _ & Hc & _ & Hl & _).
  cbv zeta. split; [rewrite Hc; reflexivity|]. split; [exact Hp | exact Hl].
Defined.

Lemma formatTime_seconds_field_witness :
  formatTime 119500 = "1:60" /\ formatTime 119499 = "1:59" /\
  formatTime 120000 = "2:00".
Proof.
  destruct (formatTime_seconds_field 119500) as (field & Hf & _ & _ & H60);
    [vm_compute; discriminate|].
  split; [|split; reflexivity].
  rewrite Hf. rewrite (proj2 H60); [reflexivity | vm_compute; discriminate].
Defined.

Lemma pickSong_adds_witness :
  songs (app (step Device.env_slowcopy
                (mount Device.env_slowcopy Scenario.saved Scenario.disk Scenario.t0)
                (OpPickSong (Some Device.unnamed)))) =
  [Scenario.songA; Scenario.songB;
   mkSong "1700000000007" "song_1700000000000.mp3"
          "file:///doc/music/song_1700000000000.mp3"].
Proof.
  destruct (pickSong_adds Device.env_slowcopy
              (mount Device.env_slowcopy Scenario.saved Scenario.disk Scenario.t0)
              Device.unnamed eq_refl)
    as (song & Hs & Hid & Hname & Huri & _).
  rewrite Hs. destruct song as [i n u]. simpl in Hid, Hname, Huri.
  rewrite Huri, Hname, Hid. reflexivity.
Defined.

Lemma pickSong_fails_cleanly_witness :
  let w := mount Device.env_nocopy Scenario.saved Scenario.disk Scenario.t0 in
  let w' := step Device.env_nocopy w (OpPickSong (Some Device.picked)) in
  app w' = app w /\ files w' = files w /\ reported "Error" "Failed to add song" w w'.
Proof.
  destruct (pickSong_fails_cleanly Device.env_nocopy
              (mount Device.env_nocopy Scenario.saved Scenario.disk Scenario.t0)
              Device.picked eq_refl)
    as (Ha & _ & Hf & Hr & _).
  cbv zeta. split; [exact Ha|]. split; [exact Hf | exact Hr].
Defined.

Lemma picked_song_survives_restart_witness :
  let w' := step Scenario.env Device.mounted (OpPickSong (Some Device.picked)) in
  exists song,
    songs (app w') = (songs (app Device.mounted) ++ [song])%list /\
    In song (songs (app (mount Scenario.env (store w') (files w') 1700000009000))).
Proof.
  apply (picked_song_survives_restart Scenario.env Device.mounted Device.picked
           1700000009000 eq_refl eq_refl).
Defined.

Lemma same_name_shares_file_witness :
  let w2 := run Scenario.env
              [OpPickSong (Some Device.picked); OpWait 5000;
               OpPickSong (Some Device.picked)]
              Device.mounted in
  let w3 := step Scenario.env w2 (OpDeleteSong "1700000000000") in
  In (mkSong "1700000005000" "c.mp3" "file:///doc/music/c.mp3") (songs (app w3)) /\
  ~ In "file:///doc/music/c.mp3" (files w3).
Proof.
  destruct (same_name_shares_file Scenario.env Device.mounted Device.picked 5000)
    as (_ & Hs & Hf).
  - reflexivity.
  - reflexivity.
  - reflexivity.
  - vm_compute. intros [H|[H|[]]]; discriminate H.
  - reflexivity.
  - cbv zeta. split; [|exact Hf].
    change (step Scenario.env
              (run Scenario.env
                 [OpPickSong (Some Device.picked); OpWait 5000;
                  OpPickSong (Some Device.picked)] Device.mounted)
              (OpDeleteSong "1700000000000"))
      with (step Scenario.env
              (run Scenario.env
                 [OpPickSong (Some Device.picked); OpWait 5000;
                  OpPickSong (Some Device.picked)] Device.mounted)
              (OpDeleteSong (song_id
                 (mkSong (toString (copied_at Scenario.env Device.picked Device.mounted))
                    (asset_name Device.picked)
                    (MUSIC_DIRECTORY Scenario.env ++ asset_name Device.picked))))).
    rewrite Hs. apply in_or_app. right. left. reflexivity.
Defined.

Lemma deleteSong_keeps_references_witness :
  let w' := step Scenario.env Device.mounted (OpDeleteSong "2") in
  I1 (app w') /\ I2 (app w').
Proof.
  apply (deleteSong_keeps_references Scenario.env Device.mounted "2" eq_refl eq_refl).
  - intros id [<-|[]]. left. reflexivity.
  - intros p id [<-|[]] [<-|[<-|[]]]; [left | right; left]; reflexivity.
Defined.

Lemma deleteSong_unwritable_favorites_witness :
  let w := mount Device.env_readonly Scenario.saved Scenario.disk Scenario.t0 in
  let w' := step Device.env_readonly w (OpDeleteSong "1") in
  In "1" (favorites (app w')) /\ ~ In "1" (song_ids (songs (app w'))).
Proof.
  destruct (deleteSong_unwritable_favorites Device.env_readonly
              (mount Device.env_readonly Scenario.saved Scenario.disk Scenario.t0) "1")
    as (Hin & Hout & _).
  - intros song _. reflexivity.
  - reflexivity.
  - left. reflexivity.
  - cbv zeta. split; [exact Hin | exact Hout].
Defined.

Lemma basic_stop_keeps_handle_witness :
  let w := Basic.step Scenario.env Basic.initialWorld (Basic.OpPlaySound Device.picked) in
  let w1 := Basic.step Scenario.env w Basic.OpStop in
  Basic.live w1 = [0] /\ Basic.currentSong (Basic.app w1) = Some Device.picked /\
  Basic.playing (Basic.app w1) = false.
Proof.
  destruct (basic_stop_keeps_handle Scenario.env
              (Basic.step Scenario.env Basic.initialWorld (Basic.OpPlaySound Device.picked))
              0 eq_refl)
    as (Hp & _ & Hc & Hl & _).
  cbv zeta. rewrite Hl, Hc. split; [reflexivity|]. split; [reflexivity | exact Hp].
Defined.

Lemma basic_unmount_keeps_handle_witness :
  Basic.live
    (Basic.unmount
       (Basic.step Scenario.env Basic.initialWorld (Basic.OpPlaySound Device.picked))) =
  [0].
Proof.
  apply (basic_unmount_keeps_handle Scenario.env [] Device.picked eq_refl).
Defined.
